(** * Wall-X modality wrapper: composition, horizon windowing, running statistics

    A shallow embedding of [wall_x/data/modality_wrapper.py]
    (class [ModalityAwareLeRobotDataset]) and of the statistics pass of
    [scripts/compute_norm_stats.py], with the properties the specification
    states about them.

    Python integers are unbounded, hence [Z].  Dictionaries are [gmap]s keyed
    by strings; the modality descriptor, whose iteration order fixes the vector
    layout, is an association list.  Exceptions are values of [exn] carried by
    the [res] monad. *)

From Stdlib Require Import ZArith QArith Qround Qfield List Lia Lqa.
From stdpp Require Import base gmap strings list fin_maps pretty.

Local Open Scope Z_scope.

(** ** Exceptions and the result monad *)

(** [KeyError k] is [KeyError(k)], what a dictionary raises for an absent key
    [k].  [ColumnNotInDataset k] is the [KeyError] of the frame store, whose
    argument is not the key but the message
    ["Column k not in the dataset. Current columns in the dataset: [...]"]. *)
Inductive exn : Type :=
| KeyError (k : string)
| ColumnNotInDataset (k : string)
| IndexError
| RuntimeError
| TypeError
| ValueError
| OverflowError.

Inductive res (A : Type) : Type :=
| Ok (a : A)
| Err (e : exn).
Arguments Ok {A} a.
Arguments Err {A} e.

#[global] Instance res_ret : MRet res := fun _ a => Ok a.

#[global] Instance res_bind : MBind res := fun _ _ f m =>
  match m with
  | Ok a => f a
  | Err e => Err e
  end.

(** A [for] loop that appends one computed part per element and stops at the
    first exception. *)
Fixpoint for_each {A B} (f : A -> res B) (l : list A) : res (list B) :=
  match l with
  | [] => Ok []
  | a :: l' => b ← f a; bs ← for_each f l'; Ok (b :: bs)
  end.

(** ** Tensors *)

(** The element types torch infers for the data at hand, with the promotion
    [torch.cat] and [torch.stack] apply to mixed inputs. *)
Inductive DType : Type := int64 | float32 | float64.

Definition promote (a b : DType) : DType :=
  match a, b with
  | float64, _ | _, float64 => float64
  | float32, _ | _, float32 => float32
  | int64, int64 => int64
  end.

(** A stored number: finite, or one of the IEEE non-finite values. *)
Inductive elem : Type :=
| Fin (q : Q)
| PosInf
| NegInf
| NaN.

Definition is_finite (e : elem) : bool :=
  match e with Fin _ => true | _ => false end.

(** The integers an int64 holds. *)
Definition in_int64 (z : Z) : bool :=
  (- 2 ^ 63 <=? z) && (z <? 2 ^ 63).

(** An integer rounded to [p] significant bits, ties to the even significand:
    the value a float with a [p]-bit significand takes for it (an int64 is far
    inside the exponent range of both float formats). *)
Definition round_int (p z : Z) : Z :=
  let a := Z.abs z in
  let e := Z.log2 a + 1 - p in
  if e <=? 0 then z
  else
    let m := a / 2 ^ e in
    let r := a mod 2 ^ e in
    let half := 2 ^ (e - 1) in
    let m' := if r <? half then m
              else if half <? r then m + 1
              else if Z.even m then m else m + 1 in
    Z.sgn z * (m' * 2 ^ e).

(** The conversion type promotion applies to a stored number.  Promotion only
    widens: an int64 (an integer, read off with [Qfloor]) becomes a float32
    (24-bit significand) or a float64 (53-bit significand) and is rounded; a
    float32 is a float64 already; the non-finite values stay what they are. *)
Definition convert (from to : DType) (e : elem) : elem :=
  match from, to, e with
  | int64, float32, Fin q => Fin (inject_Z (round_int 24 (Qfloor q)))
  | int64, float64, Fin q => Fin (inject_Z (round_int 53 (Qfloor q)))
  | _, _, _ => e
  end.

(** A tensor is either 0-dimensional, or has shape [lead ++ [D]]: the operations
    of the wrapper only ever address the last axis ([x[..., a:b]],
    [torch.cat(_, dim=-1)]), so the data are kept as the row-major list of
    last-axis rows. *)
Inductive tbody : Type :=
| Scalar (e : elem)
| Rows (lead : list nat) (D : nat) (rows : list (list elem)).

Record tensor : Type := Tensor { dtype : DType; body : tbody }.

Definition ndim (t : tensor) : nat :=
  match body t with
  | Scalar _ => 0
  | Rows lead _ _ => S (length lead)
  end.

Definition shape (t : tensor) : list nat :=
  match body t with
  | Scalar _ => []
  | Rows lead D _ => lead ++ [D]
  end.

Definition elems (t : tensor) : list elem :=
  match body t with
  | Scalar e => [e]
  | Rows _ _ rows => concat rows
  end.

(** The data agree with the declared shape. *)
Definition wf_tensor (t : tensor) : Prop :=
  match body t with
  | Scalar _ => True
  | Rows lead D rows =>
      length rows = foldr Nat.mul 1%nat lead /\ Forall (fun r => length r = D) rows
  end.

Definition vec (d : DType) (v : list elem) : tensor :=
  Tensor d (Rows [] (length v) [v]).

(** ** Python slicing *)

(** [slice.indices]: a bound is counted from the end when negative and is then
    clipped to [0, n]. *)
Definition slice_bound (n i : Z) : Z :=
  if i <? 0 then Z.max (i + n) 0 else Z.min i n.

Definition slice_lo (n start : Z) : Z := slice_bound n start.

Definition slice_hi (n : Z) (stop : option Z) : Z :=
  match stop with
  | None => n
  | Some e => slice_bound n e
  end.

Definition slice_len (n : nat) (start : Z) (stop : option Z) : nat :=
  Z.to_nat (slice_hi (Z.of_nat n) stop - slice_lo (Z.of_nat n) start).

(** [l[start:stop]]; [stop = None] is [l[start:]]. *)
Definition py_slice {A} (start : Z) (stop : option Z) (l : list A) : list A :=
  let n := Z.of_nat (length l) in
  take (Z.to_nat (slice_hi n stop - slice_lo n start))
       (drop (Z.to_nat (slice_lo n start)) l).

(** [x[..., start:stop]]: an ellipsis followed by one slice needs at least one
    axis. *)
Definition slice_last (x : tensor) (start : Z) (stop : option Z) : res tensor :=
  match body x with
  | Scalar _ => Err IndexError
  | Rows lead D rows =>
      Ok (Tensor (dtype x)
                 (Rows lead (slice_len D start stop) (map (py_slice start stop) rows)))
  end.

(** [_slice_last_dim] *)
Definition _slice_last_dim (x : tensor) (start end_ : Z) : res tensor :=
  if end_ =? -1 then slice_last x start None
  else slice_last x start (Some end_).

(** ** The horizon windower's indices *)

Definition range (H : Z) : list Z := map Z.of_nat (seq 0 (Z.to_nat H)).

(** [[min(max(idx + t, ep_start), ep_end - 1) for t in range(H)]] *)
Definition clamped_indices (idx ep_start ep_end H : Z) : list Z :=
  map (fun t => Z.min (Z.max (idx + t) ep_start) (ep_end - 1)) (range H).


(** ** [torch.cat(_, dim=-1)] and [torch.stack(_, dim=0)] *)

(** The promoted dtype of a list of dtypes, the first to the last. *)
Definition promote_all (ds : list DType) : DType :=
  match ds with
  | [] => float32
  | d :: ds' => foldl promote d ds'
  end.

Definition result_dtype (ts : list tensor) : DType := promote_all (map dtype ts).

(** torch leaves 1-D tensors without elements out of a concatenation. *)
Definition cat_skips (t : tensor) : bool :=
  match body t with
  | Rows [] O _ => true
  | _ => false
  end.

Definition is_scalar (t : tensor) : bool :=
  match body t with
  | Scalar _ => true
  | Rows _ _ _ => false
  end.

Definition lead_of (t : tensor) : list nat :=
  match body t with
  | Scalar _ => []
  | Rows lead _ _ => lead
  end.

Definition last_dim (t : tensor) : nat :=
  match body t with
  | Scalar _ => 0
  | Rows _ D _ => D
  end.

Definition rows_of (t : tensor) : list (list elem) :=
  match body t with
  | Scalar e => [[e]]
  | Rows _ _ rows => rows
  end.

(** The rows of an input, converted to the dtype of the result. *)
Definition rows_as (d : DType) (t : tensor) : list (list elem) :=
  map (map (convert (dtype t) d)) (rows_of t).

(** Row [i] of the result is row [i] of every input, side by side. *)
Fixpoint cat_rows (rs : list (list (list elem))) : list (list elem) :=
  match rs with
  | [] => []
  | [r] => r
  | r :: rs' => zip_with app r (cat_rows rs')
  end.

Definition sum_nat (l : list nat) : nat := foldr Nat.add 0%nat l.

(** [torch.cat(ts, dim=-1)]: 0-d inputs are rejected, the inputs kept must
    agree on every axis but the last; the result has the promoted dtype of all
    inputs and holds their values converted to it. *)
Definition cat_last (ts : list tensor) : res tensor :=
  match ts with
  | [] => Err RuntimeError
  | _ =>
      if existsb is_scalar ts then Err RuntimeError
      else
        match filter (fun t => cat_skips t = false) ts with
        | [] => Ok (Tensor (result_dtype ts) (Rows [] 0 [[]]))
        | t0 :: ts' =>
            if forallb (fun t => bool_decide (lead_of t = lead_of t0)) ts'
            then Ok (Tensor (result_dtype ts)
                            (Rows (lead_of t0)
                                  (sum_nat (map last_dim (t0 :: ts')))
                                  (cat_rows (map (rows_as (result_dtype ts))
                                                 (t0 :: ts')))))
            else Err RuntimeError
        end
  end.

(** [torch.stack(ts, dim=0)]: a non-empty list of tensors of one shape; the
    rows of the result are the rows of the inputs, one input after the other,
    converted to the promoted dtype. *)
Definition stack (ts : list tensor) : res tensor :=
  match ts with
  | [] => Err RuntimeError
  | t0 :: ts' =>
      if forallb (fun t => bool_decide (shape t = shape t0)) ts'
      then
        Ok (Tensor (result_dtype ts)
                   (match body t0 with
                    | Scalar _ =>
                        Rows [] (length ts)
                             [concat (concat (map (rows_as (result_dtype ts)) ts))]
                    | Rows lead D _ =>
                        Rows (length ts :: lead) D
                             (concat (map (rows_as (result_dtype ts)) ts))
                    end))
      else Err RuntimeError
  end.

(** ** Items, the frame store and the dataset object *)

(** What an item of the underlying dataset holds under a key: a tensor, a
    Python integer, or any other object.  The wrapper applies two operations to
    an object that is not a tensor, [int(_)] and [torch.as_tensor(_)], and an
    object is given by what they return: [None] is
    [VObj (Err TypeError) (Err RuntimeError)], the string ["pick"] is
    [VObj (Err ValueError) (Err TypeError)], the list [[1.0, 2.0]] is
    [VObj (Err TypeError) (Ok v)] with [v] the float32 vector. *)
Inductive value : Type :=
| VTensor (t : tensor)
| VInt (z : Z)
| VObj (as_int : res Z) (as_tensor : res tensor).

(** [item[k]] *)
Definition getkey (item : gmap string value) (k : string) : res value :=
  match item !! k with
  | Some v => Ok v
  | None => Err (KeyError k)
  end.

(** [_ensure_tensor]: [torch.as_tensor] makes a 0-d int64 tensor of a Python
    integer and rejects one that no int64 holds. *)
Definition _ensure_tensor (x : value) : res tensor :=
  match x with
  | VTensor t => Ok t
  | VInt z =>
      if in_int64 z then Ok (Tensor int64 (Scalar (Fin (inject_Z z))))
      else Err ValueError
  | VObj _ as_tensor => as_tensor
  end.

(** [int(e)] of a float: truncation towards zero. *)
Definition int_of_elem (e : elem) : res Z :=
  match e with
  | Fin q => Ok (Z.quot (Qnum q) (Z.pos (Qden q)))
  | NaN => Err ValueError
  | PosInf | NegInf => Err OverflowError
  end.

(** [t.item()]: only for a tensor of exactly one element. *)
Definition tensor_item (t : tensor) : res elem :=
  match elems t with
  | [e] => Ok e
  | _ => Err RuntimeError
  end.

(** Indexing a 1-D tensor with a Python integer: the index must fit an
    int64, and a negative one counts from the end. *)
Definition index_int {A} (l : list A) (i : Z) : res A :=
  let n := Z.of_nat (length l) in
  let j := if i <? 0 then i + n else i in
  if negb (in_int64 i) then Err ValueError
  else if (0 <=? j) && (j <? n) then
    match l !! Z.to_nat j with
    | Some a => Ok a
    | None => Err IndexError
    end
  else Err IndexError.

(** The frame store [hf_dataset]: a table of [num_rows] rows, every column
    holding one tensor per row. *)
Record hf_dataset : Type := {
  num_rows : nat;
  columns : gmap string (nat -> tensor)
}.

(** [hf_dataset.select(indices)], the rows selected.  An empty store is
    returned as it is.  Otherwise an index outside [[-n, n)] is rejected with
    [IndexError]; a negative index inside it passes that check and then fails
    the conversion of the indices to unsigned integers. *)
Definition select (ds : hf_dataset) (indices : list Z) : res (list nat) :=
  let n := Z.of_nat (num_rows ds) in
  if n =? 0 then Ok []
  else if existsb (fun i => (i <? - n) || (n <=? i)) indices then Err IndexError
  else if existsb (fun i => i <? 0) indices then Err OverflowError
  else Ok (map Z.to_nat indices).

(** [selected[orig]]: the column as a list of per-row tensors.  The store
    first checks the column name; the transform that turns the cells into
    tensors then looks at the first cell, so it fails on a selection without
    rows. *)
Definition column (ds : hf_dataset) (rows : list nat) (orig : string)
  : res (list tensor) :=
  match columns ds !! orig with
  | Some col =>
      match rows with
      | [] => Err IndexError
      | _ => Ok (map col rows)
      end
  | None => Err (ColumnNotInDataset orig)
  end.

Record spec : Type := {
  original_key : string;
  start : Z;
  end_ : Z
}.

(** The attributes of [ModalityAwareLeRobotDataset] the wrapper reads. *)
Record dataset : Type := {
  action_horizon : Z;
  state_key : string;
  action_key : string;
  state_specs : list spec;
  action_specs : list spec;
  episode_from : list Z;      (* episode_data_index["from"] *)
  episode_to : list Z;        (* episode_data_index["to"] *)
  hf : hf_dataset
}.

(** ** [_parse_vector_specs] *)

(** One entry of a modality block, typed as the descriptor format prescribes:
    a string under "original_key", integers under "start" and "end", each of
    them possibly absent. *)
Record cfg : Type := {
  cfg_original_key : option string;
  cfg_start : option Z;
  cfg_end : option Z
}.

Definition parse_entry (entry : string * cfg) : res spec :=
  match cfg_original_key entry.2 with
  | None => Err (KeyError "original_key")
  | Some k =>
      Ok {| original_key := k;
            start := default 0 (cfg_start entry.2);
            end_ := default (-1) (cfg_end entry.2) |}
  end.

Definition _parse_vector_specs (block : list (string * cfg)) : res (list spec) :=
  for_each parse_entry block.

(** ** [_compose_state], [_compose_action], [__getitem__] *)

(** [torch.cat(parts, dim=-1) if len(parts) > 1 else parts[0]] *)
Definition join_parts (parts : list tensor) : res tensor :=
  match parts with
  | [] => Err IndexError
  | [p] => Ok p
  | _ => cat_last parts
  end.

Definition state_part (item : gmap string value) (sp : spec) : res tensor :=
  v ← getkey item (original_key sp);
  x ← _ensure_tensor v;
  _slice_last_dim x (start sp) (end_ sp).

Definition _compose_state (self : dataset) (item : gmap string value) : res tensor :=
  parts ← for_each (state_part item) (state_specs self);
  join_parts parts.

(** [int(item["episode_index"].item())] for a tensor, [int(item["episode_index"])]
    otherwise. *)
Definition episode_index_of (item : gmap string value) : res Z :=
  v ← getkey item "episode_index";
  match v with
  | VTensor t => e ← tensor_item t; int_of_elem e
  | VInt z => Ok z
  | VObj as_int _ => as_int
  end.

(** The condition of the fast path. *)
Definition pregathered (item : gmap string value) (orig : string) : option tensor :=
  match item !! orig with
  | Some (VTensor t) => if (2 <=? ndim t)%nat then Some t else None
  | _ => None
  end.

(** The fallback: [torch.stack(self.hf_dataset.select(indices)[orig], dim=0)]. *)
Definition gather (ds : hf_dataset) (indices : list Z) (orig : string) : res tensor :=
  rows ← select ds indices;
  col_list ← column ds rows orig;
  stack col_list.

Definition action_part (self : dataset) (item : gmap string value)
    (indices : list Z) (sp : spec) : res tensor :=
  x ← match pregathered item (original_key sp) with
      | Some t => Ok t
      | None => gather (hf self) indices (original_key sp)
      end;
  _slice_last_dim x (start sp) (end_ sp).

Definition _compose_action (self : dataset) (item : gmap string value) (idx : Z)
  : res tensor :=
  ep_idx ← episode_index_of item;
  ep_start ← index_int (episode_from self) ep_idx;
  ep_end ← index_int (episode_to self) ep_idx;
  parts ← for_each (action_part self item
                      (clamped_indices idx ep_start ep_end (action_horizon self)))
                   (action_specs self);
  join_parts parts.

(** [__getitem__], given the item [super().__getitem__(idx)] returned. *)
Definition __getitem__ (self : dataset) (item : gmap string value) (idx : Z)
  : res (gmap string value) :=
  s ← _compose_state self item;
  let item1 := <[state_key self := VTensor s]> item in
  a ← _compose_action self item1 idx;
  Ok (<[action_key self := VTensor a]> item1).

(** ** RunningStats *)

Module RunningStats.

Local Open Scope Q_scope.

(** Modelled from the spec: the module [normalize] that [compute_norm_stats.py]
    imports ([normalize.RunningStats], with [update] and the finalisation) is
    not part of the sources at hand.  The accumulator, [update], [merge] and the
    finalised count below follow sections 3 and 4.4 of the specification, over
    exact rational arithmetic instead of 64-bit floats. *)
Record accumulator : Type := {
  count : Z;
  mean : list Q;
  m2 : list Q
}.

Inductive stats_error : Type := DimensionMismatchError.

Definition zeros (D : nat) : list Q := repeat 0 D.

(** Modelled from the spec: an accumulator is created empty; its dimension is
    not fixed before the first update. *)
Definition empty : accumulator := {| count := 0; mean := []; m2 := [] |}.

Definition vadd : list Q -> list Q -> list Q := zip_with Qplus.
Definition vsub : list Q -> list Q -> list Q := zip_with Qminus.
Definition vmul : list Q -> list Q -> list Q := zip_with Qmult.

(** Modelled from the spec: Welford's update for one sample,
    [count += 1; delta = x - mean; mean += delta / count; delta2 = x - mean;
     m2 += delta * delta2], elementwise. *)
Definition welford (a : accumulator) (x : list Q) : accumulator :=
  let count' := (count a + 1)%Z in
  let delta := vsub x (mean a) in
  let mean' := vadd (mean a) (map (fun d => d / inject_Z count') delta) in
  let delta2 := vsub x mean' in
  {| count := count'; mean := mean'; m2 := vadd (m2 a) (vmul delta delta2) |}.

(** Modelled from the spec: the first update fixes [D] from the sample's
    length; afterwards a sample of another length is rejected. *)
Definition update_sample (a : accumulator) (x : list Q)
  : stats_error + accumulator :=
  if (count a =? 0)%Z then
    inr (welford {| count := 0; mean := zeros (length x); m2 := zeros (length x) |} x)
  else if (length x =? length (mean a))%nat then inr (welford a x)
  else inl DimensionMismatchError.

(** Modelled from the spec: [update] applies the per-sample step to the
    samples of the (flattened) batch in order. *)
Fixpoint update (a : accumulator) (batch : list (list Q))
  : stats_error + accumulator :=
  match batch with
  | [] => inr a
  | x :: batch' =>
      match update_sample a x with
      | inr a' => update a' batch'
      | inl e => inl e
      end
  end.



(** Equality of accumulators up to the representation of rationals. *)
Definition acc_eq (a b : accumulator) : Prop :=
  count a = count b /\ Forall2 Qeq (mean a) (mean b) /\ Forall2 Qeq (m2 a) (m2 b).





End RunningStats.

(** ** Vocabulary of the properties *)

(** The entry checks the specification lists for [parse]: a non-empty
    original key, [start >= 0], and [end == -1 or end > start]. *)
Definition valid_spec (sp : spec) : bool :=
  negb (String.eqb (original_key sp) "")
  && (0 <=? start sp)
  && ((end_ sp =? -1) || (start sp <? end_ sp)).

(** The upper bound [_slice_last_dim] passes to the slice. *)
Definition spec_stop (sp : spec) : option Z :=
  if end_ sp =? -1 then None else Some (end_ sp).

(** The slice a field spec selects from a raw vector. *)
Definition spec_slice (sp : spec) (v : list elem) : list elem :=
  py_slice (start sp) (spec_stop sp) v.

(** A vector given by its dtype and its values; the values as the dtype [rd]
    holds them; the part a spec cuts from a field. *)
Definition vecp (f : DType * list elem) : tensor := vec f.1 f.2.

Definition values_as (rd : DType) (f : DType * list elem) : list elem :=
  map (convert f.1 rd) f.2.

Definition sliced (sp : spec) (f : DType * list elem) : DType * list elem :=
  (f.1, spec_slice sp f.2).

(** The two errors of a missing key: the dictionary's and the frame store's. *)
Definition key_error (err : string -> exn) : Prop :=
  err = KeyError \/ err = ColumnNotInDataset.

(** The original key of the first spec, in block order, that [present]
    rejects. *)
Fixpoint first_missing (present : string -> bool) (specs : list spec)
  : option string :=
  match specs with
  | [] => None
  | sp :: specs' =>
      if present (original_key sp) then first_missing present specs'
      else Some (original_key sp)
  end.

Definition in_item (item : gmap string value) (k : string) : bool :=
  bool_decide (is_Some (item !! k)).

(** A key the action path can serve: pre-gathered in the item, or a column of
    the frame store. *)
Definition in_store (self : dataset) (item : gmap string value) (k : string) : bool :=
  bool_decide (is_Some (pregathered item k))
  || bool_decide (is_Some (columns (hf self) !! k)).

(** Every stored number of a tensor satisfies [P]. *)
Definition all_elems (P : elem -> Prop) (t : tensor) : Prop := Forall P (elems t).

Definition all_finite (t : tensor) : Prop :=
  all_elems (fun e => is_finite e = true) t.

(** A field spec carries the values of its descriptor entry, with the
    defaults [start = 0] and [end = -1]. *)
Definition entry_spec (entry : string * cfg) (sp : spec) : Prop :=
  cfg_original_key entry.2 = Some (original_key sp)
  /\ start sp = default 0 (cfg_start entry.2)
  /\ end_ sp = default (-1) (cfg_end entry.2).

(** ** The specification's worked example as data *)

Definition fin (z : Z) : elem := Fin (inject_Z z).

Definition demo_item : gmap string value :=
  <["obs.pos" := VTensor (vec float32 (map fin [1; 2; 3; 9; 9]))]>
    (<["obs.vel" := VTensor (vec float32 (map fin [4; 5]))]>
       (<["episode_index" := VInt 1]> ∅)).

(** Fifteen frames; the raw action of frame [i] is [[i, 10 * i]]. *)
Definition demo_store : hf_dataset :=
  {| num_rows := 15;
     columns := {[ "act" := fun i => vec float32 [fin (Z.of_nat i); fin (10 * Z.of_nat i)] ]} |}.

(** Two episodes, [0, 10) and [10, 15), and a horizon of four. *)
Definition demo : dataset :=
  {| action_horizon := 4;
     state_key := "state";
     action_key := "action";
     state_specs := [ {| original_key := "obs.pos"; start := 0; end_ := 3 |};
                      {| original_key := "obs.vel"; start := 0; end_ := -1 |} ];
     action_specs := [ {| original_key := "act"; start := 0; end_ := -1 |} ];
     episode_from := [0; 10];
     episode_to := [10; 15];
     hf := demo_store |}.

(** The item holds under [k] the vector [f], as a tensor or as a value that
    converts to it. *)
Definition holds_vector (item : gmap string value) (k : string)
    (f : DType * list elem) : Prop :=
  exists v, item !! k = Some v /\ _ensure_tensor v = Ok (vec f.1 f.2).

(** Every referenced field the item holds is, or converts to, a tensor with a
    last axis. *)
Definition vector_frame (item : gmap string value) (specs : list spec) : Prop :=
  forall sp v, sp ∈ specs -> item !! original_key sp = Some v ->
               exists t, _ensure_tensor v = Ok t /\ (1 <= ndim t)%nat.

(** All rows of a column of the frame store have one shape; all of them are
    vectors. *)
Definition uniform_column (col : nat -> tensor) : Prop :=
  forall i j, shape (col i) = shape (col j).

Definition vector_column (col : nat -> tensor) : Prop :=
  forall i, shape (col i) = [last_dim (col O)].

(** [P] holds of the columns the action path gathers for an item: those of
    the action block's original keys that the item does not carry
    pre-gathered. *)
Definition gathered_columns (P : (nat -> tensor) -> Prop) (self : dataset)
    (item : gmap string value) : Prop :=
  forall sp col, sp ∈ action_specs self ->
                 pregathered item (original_key sp) = None ->
                 columns (hf self) !! original_key sp = Some col -> P col.

(** The episode metadata resolve the item's episode to [[ep_start, ep_end)]. *)
Definition episode_range (self : dataset) (item : gmap string value)
    (ep_start ep_end : Z) : Prop :=
  exists ep_idx,
    episode_index_of item = Ok ep_idx
    /\ index_int (episode_from self) ep_idx = Ok ep_start
    /\ index_int (episode_to self) ep_idx = Ok ep_end.

(** The width of the raw field the action path reads for an original key. *)
Definition raw_dim (self : dataset) (item : gmap string value) (k : string) : nat :=
  match pregathered item k with
  | Some t => last_dim t
  | None =>
      match columns (hf self) !! k with
      | Some col => last_dim (col O)
      | None => 0
      end
  end.

(** The width a spec's slice has on its raw field. *)
Definition part_dim (self : dataset) (item : gmap string value) (sp : spec) : nat :=
  slice_len (raw_dim self item (original_key sp)) (start sp) (spec_stop sp).

Definition D_total (self : dataset) (item : gmap string value) : nat :=
  sum_nat (map (part_dim self item) (action_specs self)).

(** The demo dataset without an "action" block in its descriptor. *)
Definition demo_no_action : dataset :=
  {| action_horizon := action_horizon demo;
     state_key := state_key demo;
     action_key := action_key demo;
     state_specs := state_specs demo;
     action_specs := [];
     episode_from := episode_from demo;
     episode_to := episode_to demo;
     hf := hf demo |}.

(** The demo dataset with a second action entry whose original key is no
    column of the store. *)
Definition demo_missing : dataset :=
  {| action_horizon := action_horizon demo;
     state_key := state_key demo;
     action_key := action_key demo;
     state_specs := state_specs demo;
     action_specs := action_specs demo
                     ++ [ {| original_key := "nope"; start := 0; end_ := -1 |} ];
     episode_from := episode_from demo;
     episode_to := episode_to demo;
     hf := hf demo |}.

(** An item that carries, under the action's original key, a tensor of three
    rows although the horizon is four. *)
Definition demo_item_short : gmap string value :=
  <["act" := VTensor (Tensor float32
                        (Rows [3%nat] 2 [[fin 13; fin 130]; [fin 14; fin 140];
                                         [fin 14; fin 140]]))]> demo_item.

(** ** The per-index gather strategy on its own *)

(** The frame store is seen here as the specification sees it: under every
    original key [k] a raw vector per frame, [raw k i], of dtype [dt k].  The
    tensor a caller supplies pre-gathered for an original key holds the raw
    vectors of the horizon's frames, one row per clamped index. *)
Definition pregathered_tensor (dt : string -> DType) (raw : string -> nat -> list elem)
    (indices : list Z) (k : string) : tensor :=
  Tensor (dt k)
         (Rows [length indices] (length (raw k O))
               (map (fun c => raw k (Z.to_nat c)) indices)).

(** The part of the action a spec contributes: its slice of every row of the
    pre-gathered tensor. *)
Definition gathered_part (dt : string -> DType) (raw : string -> nat -> list elem)
    (indices : list Z) (sp : spec) : tensor :=
  Tensor (dt (original_key sp))
         (Rows [length indices]
               (slice_len (length (raw (original_key sp) O)) (start sp) (spec_stop sp))
               (map (fun c => spec_slice sp (raw (original_key sp) (Z.to_nat c)))
                    indices)).

(** The row the composer makes of frame [i]: the specs' slices of the frame's
    raw vectors, side by side in block order, as the dtype [rd] holds them. *)
Definition composed_row (dt : string -> DType) (raw : string -> nat -> list elem)
    (specs : list spec) (rd : DType) (i : nat) : list elem :=
  concat (map (fun sp => map (convert (dt (original_key sp)) rd)
                             (spec_slice sp (raw (original_key sp) i))) specs).

(** Strategy (b) of section 4.3, written after the specification's words for
    comparison with [_compose_action]: for each of the clamped indices the
    frame is fetched from the store, the composer's slicing is applied to that
    row on its own, and the rows are stacked along a new leading axis. *)
Definition compose_action_by_gather (dt : string -> DType)
    (raw : string -> nat -> list elem) (specs : list spec) (indices : list Z)
  : tensor :=
  let rd := promote_all (map (fun sp => dt (original_key sp)) specs) in
  Tensor rd
         (Rows [length indices]
               (sum_nat (map (fun sp => slice_len (length (raw (original_key sp) O))
                                                  (start sp) (spec_stop sp)) specs))
               (map (fun c => composed_row dt raw specs rd (Z.to_nat c)) indices)).

(** The demo item with the action key pre-gathered over the horizon, as
    [delta_timestamps] would deliver it for frame 13. *)
Definition demo_item_pre : gmap string value :=
  <["act" := VTensor (Tensor float32
                        (Rows [4%nat] 2 [[fin 13; fin 130]; [fin 14; fin 140];
                                         [fin 14; fin 140]; [fin 14; fin 140]]))]>
    demo_item.

(** The demo dataset configured to publish the state under a name the
    underlying record already uses. *)
Definition demo_clash : dataset :=
  {| action_horizon := action_horizon demo;
     state_key := "obs.vel";
     action_key := action_key demo;
     state_specs := state_specs demo;
     action_specs := action_specs demo;
     episode_from := episode_from demo;
     episode_to := episode_to demo;
     hf := hf demo |}.

(** The demo item with the position stored as integers, the first of them
    one more than [2 ^ 24]. *)
Definition demo_item_mixed : gmap string value :=
  <["obs.pos" := VTensor (vec int64 (map fin [16777217; 2; 3; 9; 9]))]> demo_item.

(** The demo item with a NaN in a raw state field. *)
Definition demo_item_nan : gmap string value :=
  <["obs.vel" := VTensor (vec float32 [NaN; fin 5])]> demo_item.

(** What the demo dataset composes for frame 13, and the records it returns. *)
Definition demo_state : tensor := vec float32 (map fin [1; 2; 3; 4; 5]).

Definition demo_action : tensor :=
  Tensor float32
    (Rows [4%nat] 2 [[fin 13; fin 130]; [fin 14; fin 140];
                     [fin 14; fin 140]; [fin 14; fin 140]]).

Definition demo_out : gmap string value :=
  <["action" := VTensor demo_action]> (<["state" := VTensor demo_state]> demo_item).

Definition demo_clash_out : gmap string value :=
  <["action" := VTensor demo_action]> (<["obs.vel" := VTensor demo_state]> demo_item).

Definition demo_nan_state : tensor :=
  vec float32 [fin 1; fin 2; fin 3; NaN; fin 5].

Definition demo_nan_out : gmap string value :=
  <["action" := VTensor demo_action]>
    (<["state" := VTensor demo_nan_state]> demo_item_nan).

(** ** The scripts' configuration glue *)

(** A loaded YAML or JSON document. *)
#[warnings="-register-all"]
Inductive yaml : Type :=
| YNone
| YBool (b : bool)
| YInt (z : Z)
| YStr (s : string)
| YList (l : list yaml)
| YMap (m : gmap string yaml).

(** The exceptions the scripts' own statements can raise. *)
Inductive script_exn : Type :=
| SKeyError (k : string)
| STypeError
| SAttributeError
| SZeroDivisionError.

(** [isinstance(v, str) and len(v) > 0] *)
Definition nonempty_str (v : yaml) : option string :=
  match v with
  | YStr s => if (0 <? String.length s)%nat then Some s else None
  | _ => None
  end.

(** The loop of [resolve_modality_json] over the configuration keys;
    [lerobot_config.get(k, None)] is [None] for an absent key. *)
Fixpoint first_config_path (lerobot_config : gmap string yaml) (keys : list string)
  : option string :=
  match keys with
  | [] => None
  | k :: keys' =>
      match nonempty_str (default YNone (lerobot_config !! k)) with
      | Some s => Some s
      | None => first_config_path lerobot_config keys'
      end
  end.

Definition config_keys : list string := ["modality_json"; "modality_path"; "modality"].

(** [resolve_modality_json]; the first argument is [args.modality_json]. *)
Definition resolve_modality_json (modality_json : option string)
    (lerobot_config : gmap string yaml) : option string :=
  match modality_json with
  | Some s =>
      if (0 <? String.length s)%nat then Some s
      else first_config_path lerobot_config config_keys
  | None => first_config_path lerobot_config config_keys
  end.

(** [[cfg["original_key"] for cfg in block.values()]] *)
Fixpoint orig_keys (block : list (string * cfg)) : script_exn + list string :=
  match block with
  | [] => inr []
  | entry :: block' =>
      match cfg_original_key entry.2 with
      | None => inl (SKeyError "original_key")
      | Some k =>
          match orig_keys block' with
          | inl e => inl e
          | inr ks => inr (k :: ks)
          end
      end
  end.

(** [{k: offsets for k in keys}] *)
Definition dict_of_keys {V} (keys : list string) (v : V) : gmap string V :=
  foldl (fun d k => <[k := v]> d) ∅ keys.

(** [build_delta_timestamps], given the dataset's [fps] and the loaded modality
    file ([None] when no path was resolved).  The float quotient [t / fps] is
    left to [true_div]; a zero [fps] raises as soon as one quotient is
    computed. *)
Definition build_delta_timestamps {F} (true_div : Z -> Z -> F) (fps : Z)
    (action_horizon : Z) (modality : option (gmap string (list (string * cfg))))
  : script_exn + option (gmap string (list F)) :=
  match modality with
  | None => inr None
  | Some m =>
      match orig_keys (default [] (m !! "action")) with
      | inl e => inl e
      | inr action_orig_keys =>
          if (fps =? 0) && (0 <? action_horizon) then inl SZeroDivisionError
          else
            let offsets := map (fun t => true_div t fps) (range action_horizon) in
            inr (Some (dict_of_keys action_orig_keys offsets))
      end
  end.

(** The document [yaml.load] returns, as the objects Python holds.  A mapping
    or a list is an object of its own, and the loader hands the one object of
    an anchored node to each of its aliases: a value is therefore an immutable
    scalar or a reference to an object, and two keys may hold one reference. *)
Inductive pyval : Type :=
| PNone
| PBool (b : bool)
| PInt (z : Z)
| PFloat (q : Q)
| PStr (s : string)
| PRef (l : nat).

Inductive pyobj : Type :=
| OMap (entries : gmap string pyval)
| OList (items : list pyval).

Record document : Type := {
  root : pyval;
  objects : gmap nat pyobj
}.

(** The mapping a value refers to, if it refers to one. *)
Definition mapping_at (objs : gmap nat pyobj) (v : pyval)
  : option (nat * gmap string pyval) :=
  match v with
  | PRef l =>
      match objs !! l with
      | Some (OMap m) => Some (l, m)
      | _ => None
      end
  | _ => None
  end.

(** [load_config] after the YAML file is read:
    [config["data"]["model_type"] = config.get("model_type")], an assignment
    into the object "data" refers to.  The right-hand side is evaluated first. *)
Definition load_config (doc : document) : script_exn + document :=
  match mapping_at (objects doc) (root doc) with
  | None => inl SAttributeError
  | Some (_, config) =>
      let model_type := default PNone (config !! "model_type") in
      match config !! "data" with
      | None => inl (SKeyError "data")
      | Some v =>
          match mapping_at (objects doc) v with
          | None => inl STypeError
          | Some (l, data) =>
              inr {| root := root doc;
                     objects := <[l := OMap (<["model_type" := model_type]> data)]>
                                  (objects doc) |}
          end
      end
  end.

(** [config[k]] of a loaded configuration, when it is a mapping. *)
Definition config_item (doc : document) (k : string) : option pyval :=
  match mapping_at (objects doc) (root doc) with
  | Some (_, config) => config !! k
  | None => None
  end.

(** A configuration with the anchored mapping of "data" aliased under
    "backup":
    [{model_type: qwen2_5, data: &d {model_type: old}, backup: *d}]. *)
Definition demo_config : document :=
  {| root := PRef 0;
     objects :=
       <[0%nat := OMap (<["model_type" := PStr "qwen2_5"]>
                          (<["data" := PRef 1]> {[ "backup"%string := PRef 1 ]}))]>
         {[ 1%nat := OMap {[ "model_type"%string := PStr "old" ]} ]} |}.

(** [ModalityAwareLeRobotDataset.__init__], given what [super().__init__]
    provides (the episode table and the frame store) and the loaded modality
    file. *)
Definition __init__ (episode_from episode_to : list Z) (hf : hf_dataset)
    (modality : gmap string (list (string * cfg)))
    (action_horizon : Z) (state_key action_key : string) : res dataset :=
  state_specs ← _parse_vector_specs (default [] (modality !! "state"));
  action_specs ← _parse_vector_specs (default [] (modality !! "action"));
  Ok {| action_horizon := action_horizon;
        state_key := state_key;
        action_key := action_key;
        state_specs := state_specs;
        action_specs := action_specs;
        episode_from := episode_from;
        episode_to := episode_to;
        hf := hf |}.

(** [merge_tokenizer.py]: the tokens appended to the text tokenizer. *)
Definition action_token (i : Z) : string :=
  "<|action_token_" +:+ pretty i +:+ "|>".

Definition new_tokens (vocab_size : Z) : list string :=
  ["<|propri|>"; "<|action|>"]%string ++ map action_token (range vocab_size).

(** The row the action block composes from frame [i] of the store: the specs'
    slices of the frame's raw vectors, side by side in block order. *)
Definition frame_row (raw : string -> nat -> list elem) (specs : list spec)
    (i : nat) : list elem :=
  concat (map (fun sp => spec_slice sp (raw (original_key sp) i)) specs).

(** The demo dataset publishing state and action under one name. *)
Definition demo_same : dataset :=
  {| action_horizon := action_horizon demo;
     state_key := "action";
     action_key := "action";
     state_specs := state_specs demo;
     action_specs := action_specs demo;
     episode_from := episode_from demo;
     episode_to := episode_to demo;
     hf := hf demo |}.

(** The demo dataset with an empty frame store and no horizon. *)
Definition demo_no_store : dataset :=
  {| action_horizon := 0;
     state_key := state_key demo;
     action_key := action_key demo;
     state_specs := state_specs demo;
     action_specs := action_specs demo;
     episode_from := episode_from demo;
     episode_to := episode_to demo;
     hf := {| num_rows := 0; columns := ∅ |} |}.

(** The raw action vectors of the demo store. *)
Definition demo_raw (k : string) (i : nat) : list elem :=
  [fin (Z.of_nat i); fin (10 * Z.of_nat i)].

(** * Properties *)

(** ** Worked examples of the specification *)

Example windowing_example : clamped_indices 13 10 15 4 = [13; 14; 14; 14].
Proof. reflexivity. Qed.

(** The library behaviour the model follows, on small inputs: an int64 that no
    float32 holds is rounded to the nearest one; the frame store rejects a
    negative index that is within its length with [OverflowError] and one
    beyond its length with [IndexError]; a column of a selection without rows
    cannot be turned into tensors. *)
Example convert_example :
  convert int64 float32 (fin 16777217) = fin 16777216
  /\ convert int64 float32 (fin 16777219) = fin 16777220
  /\ convert int64 float64 (fin 16777217) = fin 16777217
  /\ convert float32 float64 NaN = NaN.
Proof. by repeat split. Qed.

Example select_example :
  select demo_store [13; 14; 14] = Ok [13; 14; 14]%nat
  /\ select demo_store [-1; -1] = Err OverflowError
  /\ select demo_store [14; 15] = Err IndexError
  /\ select demo_store [] = Ok []
  /\ column demo_store [] "act" = Err IndexError
  /\ column demo_store [13%nat] "nope" = Err (ColumnNotInDataset "nope").
Proof. by repeat split. Qed.

(** ** The clamped index sequence *)

Lemma map_fmap {A B} (f : A -> B) (l : list A) : map f l = f <$> l.
Proof. reflexivity. Qed.

Lemma range_lookup (H : Z) (i : nat) (t : Z) :
  range H !! i = Some t <-> t = Z.of_nat i /\ (i < Z.to_nat H)%nat.
Proof.
  unfold range. rewrite map_fmap, list_lookup_fmap. split.
  - intros Hl. destruct (seq 0 (Z.to_nat H) !! i) as [j|] eqn:Hj; [|discriminate].
    apply lookup_seq in Hj as [-> Hlt]. simpl in Hl. injection Hl as <-. done.
  - intros [-> Hlt]. by rewrite lookup_seq_lt.
Qed.

Lemma clamped_indices_length idx ep_start ep_end H :
  length (clamped_indices idx ep_start ep_end H) = Z.to_nat H.
Proof. unfold clamped_indices, range. by rewrite !length_map, length_seq. Qed.

Lemma clamped_indices_lookup idx ep_start ep_end H (i : nat) (c : Z) :
  clamped_indices idx ep_start ep_end H !! i = Some c <->
  c = Z.min (Z.max (idx + Z.of_nat i) ep_start) (ep_end - 1) /\ (i < Z.to_nat H)%nat.
Proof.
  unfold clamped_indices. rewrite map_fmap, list_lookup_fmap. split.
  - intros Hl. destruct (range H !! i) as [t|] eqn:Ht; [|discriminate].
    apply range_lookup in Ht as [-> Hlt]. simpl in Hl. by injection Hl as <-.
  - intros [-> Hlt].
    assert (range H !! i = Some (Z.of_nat i)) as -> by by apply range_lookup.
    done.
Qed.

(** C1. Inside an episode [ep_start < ep_end], for a frame index of the episode
    and a horizon [H >= 1], the [t]-th clamped index is
    [min(max(idx + t, ep_start), ep_end - 1)]; every clamped index lies in
    [ep_start, ep_end - 1]; the sequence has [H] entries, never decreases and
    stays at [ep_end - 1] once it got there; and from any [idx' >= ep_end - 1]
    all [H] indices are [ep_end - 1]. *)
Theorem clamped_indices_spec (idx ep_start ep_end H : Z) :
  ep_start < ep_end -> ep_start <= idx < ep_end -> 1 <= H ->
  let l := clamped_indices idx ep_start ep_end H in
  length l = Z.to_nat H
  /\ (forall t, 0 <= t < H ->
        l !! Z.to_nat t = Some (Z.min (Z.max (idx + t) ep_start) (ep_end - 1)))
  /\ (forall c, c ∈ l -> ep_start <= c <= ep_end - 1)
  /\ (forall (i j : nat) a b, (i <= j)%nat -> l !! i = Some a -> l !! j = Some b ->
        a <= b /\ (a = ep_end - 1 -> b = ep_end - 1))
  /\ (forall idx' c, ep_end - 1 <= idx' ->
        c ∈ clamped_indices idx' ep_start ep_end H -> c = ep_end - 1).
Proof.
  intros Hep Hidx HH l. subst l. split; [apply clamped_indices_length|].
  split; [|split; [|split]].
  - intros t Ht. apply clamped_indices_lookup. rewrite Z2Nat.id by lia. split; [done|lia].
  - intros c [i Hi]%list_elem_of_lookup. apply clamped_indices_lookup in Hi as [-> _]. lia.
  - intros i j a b Hij [-> _]%clamped_indices_lookup [-> _]%clamped_indices_lookup. lia.
  - intros idx' c Hge [i Hi]%list_elem_of_lookup.
    apply clamped_indices_lookup in Hi as [-> _]. lia.
Qed.

Lemma clamped_indices_spec_witness :
  let l := clamped_indices 13 10 15 4 in
  length l = Z.to_nat 4
  /\ (forall t, 0 <= t < 4 ->
        l !! Z.to_nat t = Some (Z.min (Z.max (13 + t) 10) (15 - 1)))
  /\ (forall c, c ∈ l -> 10 <= c <= 15 - 1)
  /\ (forall (i j : nat) a b, (i <= j)%nat -> l !! i = Some a -> l !! j = Some b ->
        a <= b /\ (a = 15 - 1 -> b = 15 - 1))
  /\ (forall idx' c, 15 - 1 <= idx' ->
        c ∈ clamped_indices idx' 10 15 4 -> c = 15 - 1).
Proof. apply (clamped_indices_spec 13 10 15 4); lia. Defined.

(** ** Parsing the modality descriptor *)

Lemma parse_ok (block : list (string * cfg)) :
  Forall (fun entry => is_Some (cfg_original_key entry.2)) block ->
  exists specs, _parse_vector_specs block = Ok specs /\ Forall2 entry_spec block specs.
Proof.
  unfold _parse_vector_specs.
  induction 1 as [|entry block [k Hk] _ (specs & IH & HF)]; cbn [for_each].
  - exists []. by split.
  - rewrite IH. unfold parse_entry. rewrite Hk. cbn.
    eexists; split; [reflexivity|]. constructor; [|done]. by repeat split.
Qed.

Lemma parse_missing_key (block : list (string * cfg)) :
  ~ Forall (fun entry => is_Some (cfg_original_key entry.2)) block ->
  _parse_vector_specs block = Err (KeyError "original_key").
Proof.
  unfold _parse_vector_specs. induction block as [|entry block IH]; intros Hn.
  - destruct Hn. constructor.
  - cbn [for_each]. destruct (cfg_original_key entry.2) as [k|] eqn:Hk.
    + rewrite IH; [by unfold parse_entry; rewrite Hk|].
      intros HF. apply Hn. constructor; [by rewrite Hk|done].
    + by unfold parse_entry; rewrite Hk.
Qed.

Lemma slice_whole (x : tensor) : (1 <= ndim x)%nat -> _slice_last_dim x 0 (-1) = Ok x.
Proof.
  destruct x as [d [e|lead D rows]]; unfold ndim; simpl; [lia|]. intros _.
  unfold _slice_last_dim, slice_last. simpl. do 3 f_equal.
  - unfold slice_len, slice_hi, slice_lo, slice_bound. simpl. lia.
  - induction rows as [|r rows IH]; simpl; [done|]. f_equal; [|done].
    unfold py_slice, slice_hi, slice_lo, slice_bound. simpl.
    rewrite Z.min_l by lia. simpl. rewrite drop_0, Z.sub_0_r, Nat2Z.id.
    apply firstn_all.
Qed.

(** C10. An entry that has an original key never makes parsing fail for want of
    "start" or "end": the parsed spec takes [start = 0] and [end = -1] for the
    absent fields, and a spec with both defaults selects the whole raw field. *)
Theorem parse_defaults (block : list (string * cfg)) :
  Forall (fun entry => is_Some (cfg_original_key entry.2)) block ->
  exists specs,
    _parse_vector_specs block = Ok specs
    /\ Forall2 entry_spec block specs
    /\ Forall2 (fun entry sp =>
                  (cfg_start entry.2 = None -> start sp = 0)
                  /\ (cfg_end entry.2 = None -> end_ sp = -1)
                  /\ (cfg_start entry.2 = None -> cfg_end entry.2 = None ->
                      forall x, (1 <= ndim x)%nat ->
                                _slice_last_dim x (start sp) (end_ sp) = Ok x))
               block specs.
Proof.
  intros Hk. destruct (parse_ok block Hk) as (specs & Hp & HF).
  exists specs. split; [done|]. split; [done|].
  eapply Forall2_impl; [exact HF|]. intros entry sp (_ & Hs & He).
  split; [by intros Hn; rewrite Hs, Hn|]. split; [by intros Hn; rewrite He, Hn|].
  intros Hn1 Hn2 x Hx. rewrite Hs, He, Hn1, Hn2. by apply slice_whole.
Qed.

Lemma parse_defaults_witness :
  exists specs,
    _parse_vector_specs
      [("gripper"%string,
        {| cfg_original_key := Some "obs.gripper"%string;
           cfg_start := None; cfg_end := None |})] = Ok specs
    /\ specs = [{| original_key := "obs.gripper"; start := 0; end_ := -1 |}].
Proof.
  destruct (parse_defaults
              [("gripper"%string,
                {| cfg_original_key := Some "obs.gripper"%string;
                   cfg_start := None; cfg_end := None |})]) as (specs & Hp & _).
  - repeat constructor. simpl. eauto.
  - exists specs. split; [exact Hp|]. vm_compute in Hp. by injection Hp as <-.
Defined.

(** C5, as the code has it.  [_parse_vector_specs] checks nothing about the
    original key, [start] or [end]: it fails exactly when some entry has no
    "original_key", with the [KeyError] of that lookup, and otherwise returns
    one spec per entry, in the block's order, carrying the entry's values
    as they are. *)
Theorem parse_no_validation (block : list (string * cfg)) :
  match _parse_vector_specs block with
  | Ok specs => Forall2 entry_spec block specs
  | Err e =>
      e = KeyError "original_key"
      /\ exists entry, entry ∈ block /\ cfg_original_key entry.2 = None
  end.
Proof.
  destruct (decide (Forall (fun entry => is_Some (cfg_original_key entry.2)) block))
    as [Hk|Hn].
  - destruct (parse_ok block Hk) as (specs & -> & HF). exact HF.
  - rewrite (parse_missing_key block Hn). split; [done|].
    apply not_Forall_Exists in Hn; [|apply _..].
    apply Exists_exists in Hn as (entry & Hin & Hne). exists entry.
    split; [exact Hin|]. simpl in Hne.
    destruct (cfg_original_key entry.2); [|reflexivity]. destruct Hne. by eexists.
Qed.

(** C5 as stated fails: an entry with an empty original key, a negative
    [start] and an [end] below [start] is parsed without complaint. *)
Lemma parse_accepts_malformed :
  let bad := {| original_key := ""; start := -3; end_ := -7 |} in
  valid_spec bad = false
  /\ _parse_vector_specs
       [("joint"%string,
         {| cfg_original_key := Some ""%string;
            cfg_start := Some (-3); cfg_end := Some (-7) |})] = Ok [bad].
Proof. split; reflexivity. Qed.

(** ** Composing the state vector *)

Lemma slice_bound_range (n i : Z) : 0 <= n -> 0 <= slice_bound n i <= n.
Proof. unfold slice_bound. destruct (i <? 0) eqn:E; lia. Qed.

Lemma py_slice_length {A} (start : Z) (stop : option Z) (l : list A) :
  length (py_slice start stop l) = slice_len (length l) start stop.
Proof.
  unfold py_slice, slice_len. rewrite length_take, length_drop.
  pose proof (slice_bound_range (Z.of_nat (length l)) start ltac:(lia)) as Hlo.
  assert (slice_hi (Z.of_nat (length l)) stop <= Z.of_nat (length l)) as Hhi.
  { destruct stop as [e|]; simpl; [|lia].
    pose proof (slice_bound_range (Z.of_nat (length l)) e ltac:(lia)). lia. }
  unfold slice_lo in *. lia.
Qed.

Lemma convert_same (d : DType) (e : elem) : convert d d e = e.
Proof. by destruct d, e. Qed.

Lemma rows_as_same (d : DType) (t : tensor) : dtype t = d -> rows_as d t = rows_of t.
Proof.
  intros <-. unfold rows_as. induction (rows_of t) as [|r rs IH]; [done|].
  cbn [map]. rewrite IH. f_equal.
  induction r as [|e r IHr]; [done|]. cbn [map]. by rewrite convert_same, IHr.
Qed.

Lemma map_rows_as_same (d : DType) (ts : list tensor) :
  Forall (fun t => dtype t = d) ts -> map (rows_as d) ts = map rows_of ts.
Proof.
  induction 1 as [|t ts Ht _ IH]; [done|]. cbn [map]. by rewrite rows_as_same, IH.
Qed.

Lemma Forall_dtype_vec (d : DType) (vs : list (list elem)) :
  Forall (fun t => dtype t = d) (map (vec d) vs).
Proof. induction vs; constructor; done. Qed.

Lemma slice_vec (d : DType) (sp : spec) (v : list elem) :
  _slice_last_dim (vec d v) (start sp) (end_ sp) = Ok (vec d (spec_slice sp v)).
Proof.
  unfold _slice_last_dim, spec_slice, spec_stop, vec, slice_last.
  destruct (end_ sp =? -1); simpl; by rewrite py_slice_length.
Qed.

Lemma result_dtype_vec (d : DType) (vs : list (list elem)) :
  vs <> [] -> result_dtype (map (vec d) vs) = d.
Proof.
  destruct vs as [|v vs]; [done|]. intros _. unfold result_dtype.
  cbn [map promote_all]. change (dtype (vec d v)) with d.
  induction vs as [|w vs IH]; cbn [map foldl]; [done|].
  change (dtype (vec d w)) with d.
  assert (promote d d = d) as -> by by destruct d. exact IH.
Qed.

(** *** Vectors of several dtypes *)

Lemma map_convert_same (d : DType) (v : list elem) : map (convert d d) v = v.
Proof. induction v as [|e v IH]; [done|]. cbn [map]. by rewrite convert_same, IH. Qed.

Lemma promote_idemp (d : DType) : promote d d = d.
Proof. by destruct d. Qed.

Lemma promote_all_const (d : DType) (ds : list DType) :
  ds <> [] -> Forall (fun d' => d' = d) ds -> promote_all ds = d.
Proof.
  intros Hne HF. destruct ds as [|d0 ds]; [done|].
  apply Forall_cons in HF as [-> HF]. cbn [promote_all].
  induction HF as [|d' ds Hd _ IH]; [done|]. cbn [foldl].
  rewrite Hd, promote_idemp. by apply IH.
Qed.

Lemma result_dtype_vecp (ps : list (DType * list elem)) :
  result_dtype (map vecp ps) = promote_all (map fst ps).
Proof. unfold result_dtype. by rewrite map_map. Qed.

Lemma filter_vecp (ps : list (DType * list elem)) :
  filter (fun t => cat_skips t = false) (map vecp ps)
  = map vecp (filter (fun p => p.2 <> []) ps).
Proof.
  induction ps as [|[d v] ps IH]; [done|]. cbn [map].
  rewrite !filter_cons, IH. destruct v as [|e v]; simpl; by repeat case_decide.
Qed.

Lemma concat_values_filter (rd : DType) (ps : list (DType * list elem)) :
  concat (map (values_as rd) (filter (fun p => p.2 <> []) ps))
  = concat (map (values_as rd) ps).
Proof.
  induction ps as [|[d v] ps IH]; [done|]. rewrite filter_cons.
  destruct (decide ((d, v).2 <> [])) as [Hv|Hv]; cbn [map concat]; [by rewrite IH|].
  destruct v; [by rewrite IH|]. by destruct Hv.
Qed.

Lemma cat_rows_vecp (rd : DType) (ps : list (DType * list elem)) :
  ps <> [] ->
  cat_rows (map (rows_as rd) (map vecp ps)) = [concat (map (values_as rd) ps)].
Proof.
  induction ps as [|p ps IH]; [done|]. intros _.
  destruct ps as [|q ps]; [by simpl; rewrite app_nil_r|].
  change (cat_rows (map (rows_as rd) (map vecp (p :: q :: ps))))
    with (zip_with app [values_as rd p]
            (cat_rows (map (rows_as rd) (map vecp (q :: ps))))).
  by rewrite IH.
Qed.

Lemma forallb_lead_vecp (t0 : tensor) (ps : list (DType * list elem)) :
  lead_of t0 = [] ->
  forallb (fun t => bool_decide (lead_of t = lead_of t0)) (map vecp ps) = true.
Proof.
  intros H0. induction ps as [|p ps IH]; simpl; [done|].
  rewrite IH, andb_true_r. apply bool_decide_eq_true. by rewrite H0.
Qed.

Lemma sum_last_dim_vecp (rd : DType) (ps : list (DType * list elem)) :
  sum_nat (map last_dim (map vecp ps)) = length (concat (map (values_as rd) ps)).
Proof.
  induction ps as [|[d v] ps IH]; [done|]. cbn [map concat sum_nat foldr].
  rewrite length_app. unfold values_as at 1. rewrite length_map.
  unfold sum_nat in IH. by rewrite IH.
Qed.

(** [torch.cat] of vectors: the values of all of them in order, each converted
    to the promoted dtype. *)
Lemma cat_last_vecp (ps : list (DType * list elem)) :
  ps <> [] ->
  cat_last (map vecp ps)
  = Ok (vec (promote_all (map fst ps))
            (concat (map (values_as (promote_all (map fst ps))) ps))).
Proof.
  intros Hne. unfold cat_last.
  destruct (map vecp ps) as [|t ts] eqn:Hm; [by destruct ps|]. rewrite <- Hm.
  assert (existsb is_scalar (map vecp ps) = false) as ->.
  { clear. induction ps; simpl; [done|]. done. }
  rewrite filter_vecp, result_dtype_vecp.
  set (rd := promote_all (map fst ps)).
  destruct (filter (fun p => p.2 <> []) ps) as [|w ws] eqn:Hf.
  - simpl. pose proof (concat_values_filter rd ps) as Hc. rewrite Hf in Hc.
    simpl in Hc. by rewrite <- Hc.
  - change (map vecp (w :: ws)) with (vecp w :: map vecp ws). cbv iota beta.
    rewrite forallb_lead_vecp by done.
    change (vecp w :: map vecp ws) with (map vecp (w :: ws)).
    rewrite cat_rows_vecp by done.
    rewrite (sum_last_dim_vecp rd), <- Hf, concat_values_filter. done.
Qed.

Lemma join_parts_vecp (ps : list (DType * list elem)) :
  ps <> [] ->
  join_parts (map vecp ps)
  = Ok (vec (promote_all (map fst ps))
            (concat (map (values_as (promote_all (map fst ps))) ps))).
Proof.
  intros Hne. destruct ps as [|[d v] [|q ps]]; [done| |].
  - simpl. unfold values_as. simpl. by rewrite map_convert_same, app_nil_r.
  - by apply (cat_last_vecp ((d, v) :: q :: ps)).
Qed.

Lemma state_parts_fields (item : gmap string value) (specs : list spec)
    (fields : list (DType * list elem)) :
  Forall2 (fun sp f => holds_vector item (original_key sp) f)
          specs fields ->
  for_each (state_part item) specs = Ok (map vecp (zip_with sliced specs fields))
  /\ map fst (zip_with sliced specs fields) = map fst fields
  /\ forall rd,
       map (values_as rd) (zip_with sliced specs fields)
       = zip_with (fun f s => map (convert f.1 rd) s) fields
                  (zip_with (fun sp f => spec_slice sp f.2) specs fields).
Proof.
  induction 1 as [|sp f specs fields (v & Hsp & Hv) _ (IH1 & IH2 & IH3)]; [done|].
  cbn [for_each zip_with map]. rewrite IH1, IH2. split; [|split; [done|]].
  - unfold state_part, getkey. rewrite Hsp. cbn. rewrite Hv. cbn. by rewrite slice_vec.
  - intros rd. by rewrite IH3.
Qed.

(** The state composed from a frame of vectors. *)
Lemma compose_state_fields (self : dataset) (item : gmap string value)
    (fields : list (DType * list elem)) :
  state_specs self <> [] ->
  Forall2 (fun sp f => holds_vector item (original_key sp) f)
          (state_specs self) fields ->
  _compose_state self item
  = Ok (vec (promote_all (map fst fields))
            (concat (zip_with (fun f s => map (convert f.1 (promote_all (map fst fields))) s)
                              fields
                              (zip_with (fun sp f => spec_slice sp f.2)
                                        (state_specs self) fields)))).
Proof.
  intros Hne HF.
  destruct (state_parts_fields item _ fields HF) as (Hparts & Hfst & Hvals).
  unfold _compose_state. rewrite Hparts. cbn. rewrite join_parts_vecp.
  - rewrite Hfst. by rewrite (Hvals (promote_all (map fst fields))).
  - destruct HF; [done|]. done.
Qed.

Lemma length_converted_slices (rd : DType) (specs : list spec)
    (fields : list (DType * list elem)) :
  length (concat (zip_with (fun f s => map (convert f.1 rd) s) fields
                           (zip_with (fun sp f => spec_slice sp f.2) specs fields)))
  = sum_nat (map length (zip_with (fun sp f => spec_slice sp f.2) specs fields)).
Proof.
  revert fields. induction specs as [|sp specs IH]; intros [|f fields]; try done.
  cbn [zip_with concat map sum_nat foldr]. rewrite length_app, length_map.
  specialize (IH fields). unfold sum_nat in IH. by rewrite IH.
Qed.

Lemma converted_slices_same (d : DType) (specs : list spec)
    (fields : list (DType * list elem)) :
  Forall (fun f => f.1 = d) fields ->
  concat (zip_with (fun f s => map (convert f.1 d) s) fields
                   (zip_with (fun sp f => spec_slice sp f.2) specs fields))
  = concat (zip_with (fun sp f => spec_slice sp f.2) specs fields).
Proof.
  intros HF. revert specs. induction HF as [|f fields Hf _ IH]; intros [|sp specs];
    try done.
  cbn [zip_with concat]. by rewrite IH, Hf, map_convert_same.
Qed.

(** C2, as the code has it.  When every referenced original key holds a vector
    and the state block is not empty, the composed state holds, in block
    order, the values of the slices the specs select ([[start:]] when
    [end = -1], [[start:end]] otherwise), each converted to the dtype
    [torch.cat] promotes the fields to; its length is the sum of the slice
    lengths.  When the fields have one dtype the state is the concatenation of
    the slices itself, in that dtype.  For a block of one entry the state is
    the slice itself, and with [end = -1] that is
    [frame[original_key][start:]]. *)
Theorem compose_state_spec (self : dataset) (item : gmap string value)
    (fields : list (DType * list elem)) :
  state_specs self <> [] ->
  Forall2 (fun sp f => holds_vector item (original_key sp) f)
          (state_specs self) fields ->
  let slices := zip_with (fun sp f => spec_slice sp f.2) (state_specs self) fields in
  let rd := promote_all (map fst fields) in
  exists out,
    _compose_state self item = Ok out
    /\ out = vec rd (concat (zip_with (fun f s => map (convert f.1 rd) s) fields slices))
    /\ shape out = [sum_nat (map length slices)]
    /\ dtype out = rd
    /\ (forall d, Forall (fun f => f.1 = d) fields -> out = vec d (concat slices))
    /\ (forall sp f, state_specs self = [sp] -> fields = [f] ->
          _slice_last_dim (vec f.1 f.2) (start sp) (end_ sp) = Ok out
          /\ (end_ sp = -1 -> elems out = py_slice (start sp) None f.2)).
Proof.
  intros Hne HF slices rd.
  set (out := vec rd (concat (zip_with (fun f s => map (convert f.1 rd) s)
                                       fields slices))).
  assert (_compose_state self item = Ok out) as Hout
    by by apply compose_state_fields.
  pose proof (length_converted_slices rd (state_specs self) fields) as Hlen.
  fold slices in Hlen.
  exists out. split; [exact Hout|]. split; [done|]. split; [|split; [done|split]].
  - unfold out, shape, vec. cbn [body app]. by rewrite Hlen.
  - intros d Hd. unfold out.
    assert (rd = d) as ->.
    { apply promote_all_const.
      - destruct HF; [done|]. done.
      - clear -Hd. induction Hd as [|f fields Hf _ IH]; constructor; done. }
    subst slices. by rewrite converted_slices_same.
  - intros sp f Hsp Hf. subst out slices rd. rewrite Hsp, Hf in *. cbn [zip_with map].
    cbn [promote_all foldl concat]. rewrite map_convert_same, app_nil_r.
    split; [apply slice_vec|].
    intros He. unfold spec_slice, spec_stop, elems. rewrite He. simpl.
    by rewrite app_nil_r.
Qed.

Example composition_example :
  _compose_state demo demo_item = Ok (vec float32 (map fin [1; 2; 3; 4; 5])).
Proof. reflexivity. Qed.

Example action_example :
  _compose_action demo demo_item 13
  = Ok (Tensor float32
          (Rows [4%nat] 2 [[fin 13; fin 130]; [fin 14; fin 140];
                           [fin 14; fin 140]; [fin 14; fin 140]])).
Proof. vm_compute. reflexivity. Qed.

Lemma compose_state_spec_witness :
  exists out,
    _compose_state demo demo_item = Ok out
    /\ out = vec float32 (map fin [1; 2; 3; 4; 5])
    /\ shape out = [5%nat]
    /\ dtype out = float32.
Proof.
  destruct (compose_state_spec demo demo_item
              [(float32, map fin [1; 2; 3; 9; 9]); (float32, map fin [4; 5])])
    as (out & Hc & _ & Hs & Hd & Ho & _).
  - discriminate.
  - constructor.
    + eexists. split; [apply lookup_insert_eq|reflexivity].
    + constructor; [|constructor]. eexists.
      split; [unfold demo_item; by rewrite lookup_insert_ne, lookup_insert_eq|].
      reflexivity.
  - exists out. split; [exact Hc|]. split; [|split; [exact Hs|exact Hd]].
    apply (Ho float32). by repeat constructor.
Defined.

(** C2 as stated fails on a frame whose fields differ in dtype: with the
    position stored as int64 and the velocity as float32, [torch.cat] returns
    a float32 vector, and [2 ^ 24 + 1], which no float32 holds, comes out as
    [2 ^ 24].  The state is not the concatenation of the slices, and its dtype
    is not that of the position field. *)
Lemma compose_state_converts :
  demo_item_mixed !! "obs.pos"%string
  = Some (VTensor (vec int64 (map fin [16777217; 2; 3; 9; 9])))
  /\ demo_item_mixed !! "obs.vel"%string = Some (VTensor (vec float32 (map fin [4; 5])))
  /\ _compose_state demo demo_item_mixed
     = Ok (vec float32 (map fin [16777216; 2; 3; 4; 5]))
  /\ map fin [16777216; 2; 3; 4; 5]
     <> py_slice 0 (Some 3) (map fin [16777217; 2; 3; 9; 9])
        ++ py_slice 0 None (map fin [4; 5])
  /\ float32 <> int64.
Proof.
  split; [|split; [|split; [|split]]]; done.
Qed.
(** ** Missing fields *)

Lemma first_missing_Some (present : string -> bool) (specs : list spec) (k : string) :
  first_missing present specs = Some k ->
  present k = false /\ exists sp, sp ∈ specs /\ original_key sp = k.
Proof.
  induction specs as [|sp specs IH]; simpl; [done|].
  destruct (present (original_key sp)) eqn:Hp.
  - intros [Hk (sp' & Hin & Heq)]%IH. split; [done|]. exists sp'. split; [|done].
    by apply list_elem_of_further.
  - intros [= <-]. split; [done|]. exists sp. split; [|done]. apply list_elem_of_here.
Qed.

Lemma first_missing_None (present : string -> bool) (specs : list spec) :
  first_missing present specs = None <->
  forall sp, sp ∈ specs -> present (original_key sp) = true.
Proof.
  induction specs as [|sp specs IH]; simpl.
  - split; [|done]. intros _ sp Hin. by apply elem_of_nil in Hin.
  - destruct (present (original_key sp)) eqn:Hp.
    + rewrite IH. split.
      * intros Hall sp' [->|Hin]%elem_of_cons; [done|by apply Hall].
      * intros Hall sp' Hin. apply Hall. by apply list_elem_of_further.
    + split; [done|]. intros Hall. rewrite Hall in Hp; [done|]. apply list_elem_of_here.
Qed.

(** A loop whose body succeeds on the present keys and raises the error of
    the key on the others stops at the first missing key. *)
Lemma for_each_first_missing (err : string -> exn) (present : string -> bool)
    (f : spec -> res tensor) (specs : list spec) :
  (forall sp, sp ∈ specs -> present (original_key sp) = true -> exists p, f sp = Ok p) ->
  (forall sp, sp ∈ specs -> present (original_key sp) = false ->
              f sp = Err (err (original_key sp))) ->
  match first_missing present specs with
  | Some k => for_each f specs = Err (err k)
  | None => exists parts, for_each f specs = Ok parts
  end.
Proof.
  induction specs as [|sp specs IH]; intros Hok Herr; simpl.
  - by exists [].
  - destruct (present (original_key sp)) eqn:Hp.
    + destruct (Hok sp (list_elem_of_here _ _) Hp) as [p ->]. cbn.
      specialize (IH (fun sp' Hin => Hok sp' (list_elem_of_further _ _ _ Hin))
                     (fun sp' Hin => Herr sp' (list_elem_of_further _ _ _ Hin))).
      destruct (first_missing present specs) as [k|].
      * by rewrite IH.
      * destruct IH as [parts ->]. by eexists.
    + by rewrite (Herr sp (list_elem_of_here _ _) Hp).
Qed.

Lemma cat_last_error (ts : list tensor) (e : exn) :
  cat_last ts = Err e -> e = RuntimeError.
Proof.
  unfold cat_last. destruct ts as [|t ts]; [by intros [= <-]|].
  destruct (existsb _ _); [by intros [= <-]|].
  destruct (filter _ _) as [|t0 ts']; [done|].
  destruct (forallb _ _); [done|by intros [= <-]].
Qed.

Lemma join_parts_error (parts : list tensor) (e : exn) :
  join_parts parts = Err e -> e = IndexError \/ e = RuntimeError.
Proof.
  destruct parts as [|p [|q parts]]; cbn [join_parts]; [by intros [= <-]; left|done|].
  intros H%cat_last_error. by right.
Qed.

Lemma compose_loop_missing (err : string -> exn) (present : string -> bool)
    (f : spec -> res tensor) (specs : list spec) (k : string) :
  key_error err ->
  (forall sp, sp ∈ specs -> present (original_key sp) = true -> exists p, f sp = Ok p) ->
  (forall sp, sp ∈ specs -> present (original_key sp) = false ->
              f sp = Err (err (original_key sp))) ->
  (parts ← for_each f specs; join_parts parts) = Err (err k)
  <-> first_missing present specs = Some k.
Proof.
  intros Herr' Hok Herr.
  pose proof (for_each_first_missing err present f specs Hok Herr) as H.
  destruct (first_missing present specs) as [k'|].
  - rewrite H. cbn. split; [|congruence]. destruct Herr' as [-> | ->]; congruence.
  - destruct H as [parts ->]. cbn. split; [|done].
    intros [Hj|Hj]%join_parts_error; destruct Herr' as [-> | ->]; discriminate.
Qed.

Lemma slice_last_dim_ok (x : tensor) (s e : Z) :
  (1 <= ndim x)%nat ->
  exists p, _slice_last_dim x s e = Ok p
            /\ lead_of p = lead_of x
            /\ last_dim p = slice_len (last_dim x) s (if e =? -1 then None else Some e)
            /\ dtype p = dtype x.
Proof.
  destruct x as [d [el|lead D rows]]; unfold ndim; simpl; [lia|]. intros _.
  unfold _slice_last_dim, slice_last. simpl.
  destruct (e =? -1); eexists; repeat split.
Qed.

Lemma state_part_present (item : gmap string value) (specs : list spec) (sp : spec) :
  vector_frame item specs -> sp ∈ specs -> in_item item (original_key sp) = true ->
  exists p, state_part item sp = Ok p.
Proof.
  intros Hvf Hin [v Hv]%bool_decide_eq_true.
  destruct (Hvf sp v Hin Hv) as (t & Ht' & Ht).
  unfold state_part, getkey. rewrite Hv. cbn. rewrite Ht'. cbn.
  destruct (slice_last_dim_ok t (start sp) (end_ sp) Ht) as (p & -> & _). by eexists.
Qed.

Lemma state_part_absent (item : gmap string value) (sp : spec) :
  in_item item (original_key sp) = false ->
  state_part item sp = Err (KeyError (original_key sp)).
Proof.
  intros Hn%bool_decide_eq_false. unfold state_part, getkey.
  destruct (item !! original_key sp) as [v|] eqn:Hv; [|done].
  destruct Hn. by eexists.
Qed.

Lemma select_in_range (ds : hf_dataset) (indices : list Z) :
  Forall (fun i => 0 <= i < Z.of_nat (num_rows ds)) indices ->
  select ds indices = Ok (map Z.to_nat indices).
Proof.
  intros HF. unfold select. cbv zeta.
  destruct (Z.of_nat (num_rows ds) =? 0) eqn:En.
  - destruct HF as [|i indices Hi _]; [done|]. lia.
  - assert (existsb (fun i => (i <? - Z.of_nat (num_rows ds))
                              || (Z.of_nat (num_rows ds) <=? i)) indices = false) as ->.
    { clear En. induction HF as [|i indices Hi _ IH]; [done|]. cbn [existsb].
      rewrite IH. lia. }
    assert (existsb (fun i => i <? 0) indices = false) as ->; [|done].
    clear En. induction HF as [|i indices Hi _ IH]; [done|]. cbn [existsb].
    rewrite IH. lia.
Qed.

Lemma clamped_indices_in_episode (idx ep_start ep_end H c : Z) :
  ep_start < ep_end -> c ∈ clamped_indices idx ep_start ep_end H ->
  ep_start <= c <= ep_end - 1.
Proof.
  intros Hep [i Hi]%list_elem_of_lookup.
  apply clamped_indices_lookup in Hi as [-> _]. lia.
Qed.

(** Clamping keeps the horizon inside the episode, so the store serves every
    index however far the horizon reaches. *)
Lemma select_clamped (ds : hf_dataset) (idx ep_start ep_end H : Z) :
  ep_start < ep_end -> 0 <= ep_start -> ep_end <= Z.of_nat (num_rows ds) ->
  select ds (clamped_indices idx ep_start ep_end H)
  = Ok (map Z.to_nat (clamped_indices idx ep_start ep_end H)).
Proof.
  intros Hep H0 Hn. apply select_in_range, Forall_forall. intros c Hc.
  pose proof (clamped_indices_in_episode idx ep_start ep_end H c Hep Hc). lia.
Qed.

Lemma stack_uniform (ts : list tensor) (t0 : tensor) :
  ts <> [] -> Forall (fun t => shape t = shape t0) ts ->
  exists out, stack ts = Ok out
              /\ shape out = length ts :: shape t0
              /\ (1 <= ndim out)%nat.
Proof.
  intros Hne HF. destruct ts as [|t ts]; [done|]. unfold stack.
  apply Forall_cons in HF as [Ht HF].
  assert (forallb (fun t' => bool_decide (shape t' = shape t)) ts = true) as ->.
  { apply forallb_forall. intros t' Hin. apply bool_decide_eq_true.
    rewrite Forall_forall in HF. rewrite Ht. apply HF. by apply list_elem_of_In. }
  eexists. split; [reflexivity|]. rewrite <- Ht.
  destruct t as [d [e|lead D rows]]; unfold shape, ndim; simpl; split; (done || lia).
Qed.

Lemma column_present (ds : hf_dataset) (rows : list nat) (k : string)
    (col : nat -> tensor) :
  columns ds !! k = Some col -> rows <> [] -> column ds rows k = Ok (map col rows).
Proof. intros Hk Hne. unfold column. rewrite Hk. by destruct rows. Qed.

Lemma clamped_rows_nonempty (idx ep_start ep_end H : Z) :
  1 <= H -> map Z.to_nat (clamped_indices idx ep_start ep_end H) <> [].
Proof.
  intros HH Hnil. apply (f_equal length) in Hnil.
  rewrite length_map, clamped_indices_length in Hnil. simpl in Hnil. lia.
Qed.

Lemma gather_present (ds : hf_dataset) (idx ep_start ep_end H : Z)
    (k : string) (col : nat -> tensor) :
  uniform_column col ->
  ep_start < ep_end -> 0 <= ep_start -> ep_end <= Z.of_nat (num_rows ds) -> 1 <= H ->
  columns ds !! k = Some col ->
  exists x, gather ds (clamped_indices idx ep_start ep_end H) k = Ok x
            /\ shape x = Z.to_nat H :: shape (col O)
            /\ (1 <= ndim x)%nat.
Proof.
  intros Hu Hep H0 Hn HH Hk. unfold gather.
  rewrite select_clamped by done. cbn.
  rewrite (column_present ds _ k col Hk) by by apply clamped_rows_nonempty. cbn.
  set (rows := map Z.to_nat (clamped_indices idx ep_start ep_end H)).
  destruct (stack_uniform (map col rows) (col O)) as (out & Hs & Hsh & Hnd).
  - subst rows. intros Hnil. apply (f_equal length) in Hnil.
    rewrite !length_map, clamped_indices_length in Hnil. simpl in Hnil. lia.
  - apply Forall_forall. intros t [i [<- _]]%list_elem_of_In%in_map_iff.
    apply Hu.
  - exists out. split; [done|]. split; [|done].
    rewrite Hsh. subst rows. by rewrite !length_map, clamped_indices_length.
Qed.

Lemma gather_absent (ds : hf_dataset) (idx ep_start ep_end H : Z) (k : string) :
  ep_start < ep_end -> 0 <= ep_start -> ep_end <= Z.of_nat (num_rows ds) ->
  columns ds !! k = None ->
  gather ds (clamped_indices idx ep_start ep_end H) k = Err (ColumnNotInDataset k).
Proof.
  intros Hep H0 Hn Hk. unfold gather, column.
  rewrite select_clamped by done. cbn. by rewrite Hk.
Qed.

Lemma pregathered_ndim (item : gmap string value) (k : string) (t : tensor) :
  pregathered item k = Some t -> item !! k = Some (VTensor t) /\ (2 <= ndim t)%nat.
Proof.
  unfold pregathered. destruct (item !! k) as [[t'| | ]|]; try done.
  destruct (2 <=? ndim t')%nat eqn:E; [|done]. intros [= ->].
  split; [done|]. by apply Nat.leb_le.
Qed.

Lemma action_part_present (self : dataset) (item : gmap string value)
    (idx ep_start ep_end : Z) (sp : spec) :
  gathered_columns uniform_column self item -> sp ∈ action_specs self ->
  ep_start < ep_end -> 0 <= ep_start -> ep_end <= Z.of_nat (num_rows (hf self)) ->
  1 <= action_horizon self ->
  in_store self item (original_key sp) = true ->
  exists p, action_part self item
              (clamped_indices idx ep_start ep_end (action_horizon self)) sp = Ok p.
Proof.
  intros Hu Hsp Hep H0 Hn HH Hin. unfold action_part.
  destruct (pregathered item (original_key sp)) as [t|] eqn:Hp.
  - apply pregathered_ndim in Hp as [_ Ht]. cbn.
    destruct (slice_last_dim_ok t (start sp) (end_ sp)) as (p & -> & _); [lia|].
    by eexists.
  - unfold in_store in Hin. rewrite Hp in Hin.
    rewrite bool_decide_eq_false_2 in Hin by (by intros [? ?]). simpl in Hin.
    apply bool_decide_eq_true in Hin as [col Hcol].
    destruct (gather_present (hf self) idx ep_start ep_end (action_horizon self)
                (original_key sp) col) as (x & -> & _ & Hx); try done.
    { by apply (Hu sp). }
    cbn. destruct (slice_last_dim_ok x (start sp) (end_ sp) Hx) as (p & -> & _).
    by eexists.
Qed.

Lemma action_part_absent (self : dataset) (item : gmap string value)
    (idx ep_start ep_end : Z) (sp : spec) :
  ep_start < ep_end -> 0 <= ep_start -> ep_end <= Z.of_nat (num_rows (hf self)) ->
  in_store self item (original_key sp) = false ->
  action_part self item
    (clamped_indices idx ep_start ep_end (action_horizon self)) sp
  = Err (ColumnNotInDataset (original_key sp)).
Proof.
  intros Hep H0 Hn Hin. unfold in_store in Hin.
  apply orb_false_iff in Hin as [Hp%bool_decide_eq_false Hc%bool_decide_eq_false].
  unfold action_part.
  destruct (pregathered item (original_key sp)) as [t|]; [destruct Hp; by eexists|].
  rewrite gather_absent; [done..|].
  destruct (columns (hf self) !! original_key sp); [destruct Hc; by eexists|done].
Qed.

Lemma compose_action_unfold (self : dataset) (item : gmap string value)
    (idx ep_start ep_end : Z) :
  episode_range self item ep_start ep_end ->
  _compose_action self item idx
  = (parts ← for_each (action_part self item
                         (clamped_indices idx ep_start ep_end (action_horizon self)))
                      (action_specs self);
     join_parts parts).
Proof.
  intros (ep_idx & He & Hf & Ht). unfold _compose_action. rewrite He. cbn.
  rewrite Hf. cbn. by rewrite Ht.
Qed.

Lemma slice_last_dim_error (x : tensor) (s e : Z) (er : exn) :
  _slice_last_dim x s e = Err er -> er = IndexError.
Proof.
  unfold _slice_last_dim, slice_last.
  destruct (e =? -1); destruct (body x); by intros [= <-].
Qed.

Lemma for_each_error {A B} (f : A -> res B) (l : list A) (e : exn) :
  for_each f l = Err e -> exists a, a ∈ l /\ f a = Err e.
Proof.
  induction l as [|a l IH]; cbn [for_each]; [done|].
  destruct (f a) as [b|e'] eqn:Hb; cbn.
  - destruct (for_each f l) as [bs|e'']; cbn; [done|]. intros [= <-].
    destruct IH as (a' & Hin & Ha'); [done|]. exists a'. split; [|done].
    by apply list_elem_of_further.
  - intros [= <-]. exists a. split; [apply list_elem_of_here|done].
Qed.

(** The fallback never raises the dictionary's [KeyError]. *)
Lemma action_part_no_KeyError (self : dataset) (item : gmap string value)
    (indices : list Z) (sp : spec) (k : string) :
  action_part self item indices sp <> Err (KeyError k).
Proof.
  unfold action_part.
  destruct (pregathered item (original_key sp)) as [t|]; cbn.
  - intros H%slice_last_dim_error. discriminate.
  - unfold gather, select, column. cbv zeta.
    destruct (Z.of_nat (num_rows (hf self)) =? 0);
      [|destruct (existsb _ indices); [done|destruct (existsb _ indices); [done|]]];
      cbn; (destruct (columns (hf self) !! original_key sp) as [col|]; [|done]).
    + done.
    + destruct (map Z.to_nat indices) as [|r rows]; [done|]. cbn.
      unfold stack. cbn [map]. destruct (forallb _ _); [|done]. cbn.
      intros H%slice_last_dim_error. discriminate.
Qed.

(** C4, as the code has it.  The code has no [MissingFieldError]: a missing
    field surfaces as the [KeyError] of the lookup that fails, and the loop
    stops at the first spec, in block order, whose part cannot be produced.
    On a frame whose referenced fields have a last axis, composing the state
    fails with [KeyError(k)] exactly when [k] is the first original key of the
    block absent from the frame.  The action path, once the episode is
    resolved inside the store and the columns it gathers are uniform, fails
    with the frame store's [KeyError] ("Column k not in the dataset ...")
    exactly when [k] is the first original key that is neither pre-gathered in
    the item nor a column of the store, and never with [KeyError(k)].  Either
    failure is what [__getitem__] returns. *)
Theorem missing_field_error (self : dataset) (item : gmap string value)
    (idx ep_start ep_end : Z) :
  vector_frame item (state_specs self) ->
  episode_range self item ep_start ep_end ->
  ep_start < ep_end -> 0 <= ep_start -> ep_end <= Z.of_nat (num_rows (hf self)) ->
  1 <= action_horizon self ->
  gathered_columns uniform_column self item ->
  (forall k, _compose_state self item = Err (KeyError k)
             <-> first_missing (in_item item) (state_specs self) = Some k)
  /\ ((exists k, _compose_state self item = Err (KeyError k))
      <-> exists sp, sp ∈ state_specs self /\ item !! original_key sp = None)
  /\ (forall k, _compose_action self item idx = Err (ColumnNotInDataset k)
                <-> first_missing (in_store self item) (action_specs self) = Some k)
  /\ ((exists k, _compose_action self item idx = Err (ColumnNotInDataset k))
      <-> exists sp, sp ∈ action_specs self
                     /\ in_store self item (original_key sp) = false)
  /\ (forall k, _compose_action self item idx <> Err (KeyError k))
  /\ (forall e, _compose_state self item = Err e -> __getitem__ self item idx = Err e)
  /\ (forall st e, _compose_state self item = Ok st ->
        _compose_action self (<[state_key self := VTensor st]> item) idx = Err e ->
        __getitem__ self item idx = Err e).
Proof.
  intros Hvf Hep Hlt H0 Hn HH Hu.
  assert (forall k, _compose_state self item = Err (KeyError k)
             <-> first_missing (in_item item) (state_specs self) = Some k) as Hstate.
  { intros k. unfold _compose_state. apply (compose_loop_missing KeyError); [by left| |].
    - intros sp Hin Hp. by eapply state_part_present.
    - intros sp _ Hp. by apply state_part_absent. }
  assert (forall k, _compose_action self item idx = Err (ColumnNotInDataset k)
             <-> first_missing (in_store self item) (action_specs self) = Some k)
    as Haction.
  { intros k. rewrite (compose_action_unfold self item idx ep_start ep_end Hep).
    apply (compose_loop_missing ColumnNotInDataset); [by right| |].
    - intros sp Hin Hp. by apply action_part_present.
    - intros sp _ Hp. by apply action_part_absent. }
  split; [exact Hstate|]. split; [|split; [exact Haction|split; [|split; [|split]]]].
  - split.
    + intros [k Hk]. apply Hstate, first_missing_Some in Hk as [Hk (sp & Hin & <-)].
      exists sp. split; [done|]. apply bool_decide_eq_false in Hk.
      destruct (item !! original_key sp) eqn:E; [|done]. destruct Hk. by eexists.
    + intros (sp & Hin & Hsp).
      destruct (first_missing (in_item item) (state_specs self)) as [k|] eqn:Hf.
      * exists k. by apply Hstate.
      * rewrite first_missing_None in Hf. specialize (Hf sp Hin).
        apply bool_decide_eq_true in Hf as [v Hv]. congruence.
  - split.
    + intros [k Hk]. apply Haction, first_missing_Some in Hk as [Hk (sp & Hin & <-)].
      by exists sp.
    + intros (sp & Hin & Hsp).
      destruct (first_missing (in_store self item) (action_specs self)) as [k|] eqn:Hf.
      * exists k. by apply Haction.
      * rewrite first_missing_None in Hf. specialize (Hf sp Hin). congruence.
  - intros k. rewrite (compose_action_unfold self item idx ep_start ep_end Hep).
    destruct (for_each _ _) as [parts|e] eqn:Hparts; cbn.
    + intros [Hj|Hj]%join_parts_error; discriminate.
    + intros [= ->]. apply for_each_error in Hparts as (sp & _ & Hsp).
      by apply action_part_no_KeyError in Hsp.
  - intros e He. unfold __getitem__. by rewrite He.
  - intros st e Hs Ha. unfold __getitem__. rewrite Hs. cbn. by rewrite Ha.
Qed.

Lemma demo_episode_range (item : gmap string value) :
  item !! "episode_index"%string = Some (VInt 1) -> episode_range demo item 10 15.
Proof.
  intros Hi. exists 1. unfold episode_index_of, getkey. rewrite Hi. by repeat split.
Qed.

Lemma demo_store_column (k : string) (col : nat -> tensor) :
  columns demo_store !! k = Some col ->
  k = "act"%string /\ col = fun i => vec float32 [fin (Z.of_nat i); fin (10 * Z.of_nat i)].
Proof.
  unfold demo_store. simpl. by intros [<- <-]%lookup_singleton_Some.
Qed.

Lemma missing_field_error_witness :
  _compose_state demo_missing (delete "obs.vel"%string demo_item)
  = Err (KeyError "obs.vel")
  /\ _compose_action demo_missing (delete "obs.vel"%string demo_item) 13
     = Err (ColumnNotInDataset "nope").
Proof.
  destruct (missing_field_error demo_missing (delete "obs.vel"%string demo_item) 13 10 15)
    as (Hstate & _ & Haction & _).
  - intros sp v Hin Hv.
    apply elem_of_cons in Hin as [->|Hin];
      [|apply elem_of_cons in Hin as [->|Hin]; [|by apply elem_of_nil in Hin]].
    + vm_compute in Hv. injection Hv as <-. eexists. split; [reflexivity|].
      unfold ndim. simpl. lia.
    + vm_compute in Hv. discriminate.
  - exists 1. by repeat split.
  - lia.
  - lia.
  - simpl. lia.
  - simpl. lia.
  - intros sp col _ _ [_ ->]%demo_store_column i j. reflexivity.
  - split; [by apply Hstate|by apply Haction].
Defined.

(** C4 as stated fails on a frame that lacks "obs.vel" and holds an integer
    under "obs.pos", the key the block reads first: the composition raises
    [IndexError], not the error of the missing field.  And where the fallback
    gather misses a column, the [KeyError] it raises carries the frame store's
    message, not the original key. *)
Lemma missing_field_masked :
  (exists sp, sp ∈ state_specs demo
              /\ <["obs.pos" := VInt 7]> (delete "obs.vel"%string demo_item)
                 !! original_key sp = None)
  /\ _compose_state demo (<["obs.pos" := VInt 7]> (delete "obs.vel"%string demo_item))
     = Err IndexError
  /\ __getitem__ demo (<["obs.pos" := VInt 7]> (delete "obs.vel"%string demo_item)) 13
     = Err IndexError
  /\ _compose_action demo_missing demo_item 13 = Err (ColumnNotInDataset "nope")
  /\ ColumnNotInDataset "nope" <> KeyError "nope".
Proof.
  split; [|split; [|split; [|split]]]; try done.
  exists {| original_key := "obs.vel"; start := 0; end_ := -1 |}. split.
  - apply list_elem_of_further, list_elem_of_here.
  - simpl original_key. rewrite lookup_insert_ne by done. apply lookup_delete_eq.
Qed.
(** ** The shape of the composed action *)

Lemma shape_lead_last (x : tensor) (l : list nat) (d : nat) :
  shape x = l ++ [d] -> lead_of x = l /\ last_dim x = d /\ is_scalar x = false.
Proof.
  destruct x as [dt [e|lead D rows]]; unfold shape, lead_of, last_dim, is_scalar; simpl.
  - by destruct l.
  - intros [-> ->]%app_inj_tail. done.
Qed.

Lemma for_each_Forall2 {A B} (f : A -> res B) (P : A -> B -> Prop) (l : list A) :
  (forall a, a ∈ l -> exists b, f a = Ok b /\ P a b) ->
  exists bs, for_each f l = Ok bs /\ Forall2 P l bs.
Proof.
  induction l as [|a l IH]; intros Hf.
  - exists []. by split.
  - destruct (Hf a (list_elem_of_here _ _)) as (b & Hb & HP).
    destruct IH as (bs & Hbs & HF).
    { intros a' Hin. apply Hf. by apply list_elem_of_further. }
    exists (b :: bs). cbn [for_each]. rewrite Hb, Hbs. split; [done|]. by constructor.
Qed.

Lemma cat_last_same_lead (ts : list tensor) (L : list nat) :
  ts <> [] -> L <> [] -> Forall (fun t => lead_of t = L /\ is_scalar t = false) ts ->
  exists out, cat_last ts = Ok out
              /\ shape out = L ++ [sum_nat (map last_dim ts)].
Proof.
  intros Hne HL HF. unfold cat_last. destruct ts as [|t ts]; [done|].
  assert (existsb is_scalar (t :: ts) = false) as ->.
  { clear Hne. induction HF as [|t' ts' [_ Ht'] _ IH]; simpl; [done|].
    by rewrite Ht', IH. }
  assert (filter (fun t0 => cat_skips t0 = false) (t :: ts) = t :: ts) as ->.
  { clear Hne. induction HF as [|t' ts' [Hl Ht'] _ IH]; [done|].
    rewrite filter_cons, IH.
    assert (cat_skips t' = false) as Hs.
    { unfold cat_skips. unfold lead_of in Hl.
      destruct (body t') as [e|lead D rows]; [done|]. subst lead.
      destruct L; [done|done]. }
    by rewrite decide_True. }
  apply Forall_cons in HF as [[Hl _] HF].
  assert (forallb (fun t0 => bool_decide (lead_of t0 = lead_of t)) ts = true) as ->.
  { apply forallb_forall. intros t' Hin. apply bool_decide_eq_true.
    rewrite Forall_forall in HF. rewrite Hl. apply HF. by apply list_elem_of_In. }
  eexists. split; [reflexivity|]. unfold shape. simpl. by rewrite Hl.
Qed.

Lemma join_parts_same_lead (parts : list tensor) (L : list nat) :
  parts <> [] -> L <> [] ->
  Forall (fun t => lead_of t = L /\ is_scalar t = false) parts ->
  exists out, join_parts parts = Ok out
              /\ shape out = L ++ [sum_nat (map last_dim parts)].
Proof.
  intros Hne HL HF. destruct parts as [|p [|q parts]]; [done| |].
  - exists p. split; [done|]. apply Forall_cons in HF as [[Hl Hs] _].
    unfold shape, lead_of, last_dim, is_scalar in *. simpl.
    destruct (body p); [done|]. subst. by rewrite Nat.add_0_r.
  - by apply cat_last_same_lead.
Qed.

Lemma slice_keeps_rows (x p : tensor) (s e : Z) :
  _slice_last_dim x s e = Ok p -> is_scalar p = false.
Proof.
  unfold _slice_last_dim, slice_last, is_scalar.
  destruct (e =? -1); destruct (body x); intros [= <-]; done.
Qed.

Lemma action_part_shape (self : dataset) (item : gmap string value)
    (idx ep_start ep_end : Z) (sp : spec) :
  (forall col, pregathered item (original_key sp) = None ->
               columns (hf self) !! original_key sp = Some col -> vector_column col) ->
  (forall t, pregathered item (original_key sp) = Some t ->
             lead_of t = [Z.to_nat (action_horizon self)]) ->
  ep_start < ep_end -> 0 <= ep_start -> ep_end <= Z.of_nat (num_rows (hf self)) ->
  1 <= action_horizon self ->
  in_store self item (original_key sp) = true ->
  exists p, action_part self item
              (clamped_indices idx ep_start ep_end (action_horizon self)) sp = Ok p
            /\ lead_of p = [Z.to_nat (action_horizon self)]
            /\ is_scalar p = false
            /\ last_dim p = part_dim self item sp.
Proof.
  intros Hv Hpre Hep H0 Hn HH Hin. unfold action_part, part_dim, raw_dim, spec_stop.
  destruct (pregathered item (original_key sp)) as [t|] eqn:Hp.
  - pose proof (Hpre t eq_refl) as Hl. apply pregathered_ndim in Hp as [_ Ht]. cbn.
    destruct (slice_last_dim_ok t (start sp) (end_ sp)) as (p & Hs & Hlp & Hd & _);
      [lia|].
    exists p. rewrite Hs. repeat split; [congruence| |done].
    by eapply slice_keeps_rows.
  - unfold in_store in Hin. rewrite Hp in Hin.
    rewrite bool_decide_eq_false_2 in Hin by (by intros [? ?]). simpl in Hin.
    apply bool_decide_eq_true in Hin as [col Hcol]. rewrite Hcol.
    specialize (Hv col eq_refl Hcol).
    destruct (gather_present (hf self) idx ep_start ep_end (action_horizon self)
                (original_key sp) col) as (x & -> & Hsh & Hx); try done.
    { intros i j. by rewrite !Hv. }
    rewrite (Hv O) in Hsh.
    apply (shape_lead_last x [Z.to_nat (action_horizon self)]) in Hsh
      as (Hl & Hd & _).
    cbn. destruct (slice_last_dim_ok x (start sp) (end_ sp) Hx)
      as (p & Hs & Hlp & Hdp & _).
    exists p. rewrite Hs. repeat split; [congruence| |congruence].
    by eapply slice_keeps_rows.
Qed.

(** C6, as the code has it.  For a frame index inside its episode, an episode
    inside the store, a horizon [H >= 1] and a non-empty action block whose
    pre-gathered tensors, if any, have [H] rows and whose gathered columns
    hold vectors, the composed action has shape [[H, D_total]], however far
    the horizon reaches past the episode end; the only failure left is the
    frame store's [KeyError] for the first original key that is neither
    pre-gathered nor a column of the store.  Nothing is asked of the columns
    the action block does not read. *)
Theorem compose_action_shape (self : dataset) (item : gmap string value)
    (idx ep_start ep_end : Z) :
  action_specs self <> [] ->
  episode_range self item ep_start ep_end ->
  ep_start <= idx < ep_end ->
  0 <= ep_start -> ep_end <= Z.of_nat (num_rows (hf self)) ->
  1 <= action_horizon self ->
  gathered_columns vector_column self item ->
  (forall sp t, sp ∈ action_specs self ->
                pregathered item (original_key sp) = Some t ->
                lead_of t = [Z.to_nat (action_horizon self)]) ->
  match first_missing (in_store self item) (action_specs self) with
  | None =>
      exists out, _compose_action self item idx = Ok out
                  /\ shape out = [Z.to_nat (action_horizon self); D_total self item]
  | Some k => _compose_action self item idx = Err (ColumnNotInDataset k)
  end.
Proof.
  intros Hne Hep Hidx H0 Hn HH Hv Hpre.
  assert (ep_start < ep_end) as Hlt by lia.
  assert (gathered_columns uniform_column self item) as Hu.
  { intros sp c Hin Hp Hk i j. by rewrite !(Hv sp c Hin Hp Hk). }
  rewrite (compose_action_unfold self item idx ep_start ep_end Hep).
  destruct (first_missing (in_store self item) (action_specs self)) as [k|] eqn:Hf.
  - apply (compose_loop_missing ColumnNotInDataset (in_store self item));
      [by right| | |done].
    + intros sp Hin Hp. by apply action_part_present.
    + intros sp _ Hp. by apply action_part_absent.
  - rewrite first_missing_None in Hf.
    destruct (for_each_Forall2
                (action_part self item
                   (clamped_indices idx ep_start ep_end (action_horizon self)))
                (fun sp p => lead_of p = [Z.to_nat (action_horizon self)]
                             /\ is_scalar p = false
                             /\ last_dim p = part_dim self item sp)
                (action_specs self)) as (parts & -> & HF).
    { intros sp Hin. apply action_part_shape; try done; [| |by apply Hf].
      - intros col. by apply Hv.
      - intros t. by apply Hpre. }
    cbn.
    destruct (join_parts_same_lead parts [Z.to_nat (action_horizon self)])
      as (out & Hj & Hsh).
    + intros ->. apply Forall2_nil_inv_r in HF. done.
    + done.
    + clear -HF. induction HF as [|sp p specs parts (Hl & Hs & _) _ IH];
        constructor; done.
    + exists out. split; [done|]. rewrite Hsh. simpl. do 2 f_equal.
      unfold D_total. clear -HF.
      induction HF as [|sp p specs parts (_ & _ & Hd) _ IH]; simpl; [done|].
      by rewrite Hd, IH.
Qed.

Lemma compose_action_shape_witness :
  exists out, _compose_action demo demo_item 13 = Ok out
              /\ shape out = [4%nat; 2%nat].
Proof.
  pose proof (compose_action_shape demo demo_item 13 10 15) as H.
  simpl in H. apply H; clear H.
  - discriminate.
  - by apply demo_episode_range.
  - lia.
  - lia.
  - lia.
  - lia.
  - intros sp col _ _ [_ ->]%demo_store_column i. reflexivity.
  - intros sp t Hin Hp. apply list_elem_of_singleton in Hin as ->.
    vm_compute in Hp. discriminate.
Defined.

(** C6 as stated fails on two inputs with a valid frame index and [H = 4]: a
    descriptor without action entries makes the composition raise
    [IndexError], which is neither missing metadata nor a missing field; and a
    pre-gathered tensor of three rows is passed on as it is, so the result has
    three rows, not [H]. *)
Lemma compose_action_shape_fails :
  _compose_action demo_no_action demo_item 13 = Err IndexError
  /\ episode_range demo_no_action demo_item 10 15
  /\ (exists out, _compose_action demo demo_item_short 13 = Ok out
                  /\ shape out = [3%nat; 2%nat]
                  /\ action_horizon demo = 4).
Proof.
  split; [reflexivity|]. split.
  - by apply demo_episode_range.
  - eexists. split; [vm_compute; reflexivity|]. by split.
Qed.

(** ** Fast path and fallback *)

Lemma for_each_ext {A B} (f g : A -> res B) (l : list A) :
  (forall a, a ∈ l -> f a = g a) -> for_each f l = for_each g l.
Proof.
  induction l as [|a l IH]; intros Hfg; [done|]. cbn [for_each].
  rewrite (Hfg a (list_elem_of_here _ _)), IH; [done|].
  intros a' Hin. apply Hfg. by apply list_elem_of_further.
Qed.

Lemma for_each_map {A B} (f : A -> res B) (g : A -> B) (l : list A) :
  (forall a, a ∈ l -> f a = Ok (g a)) -> for_each f l = Ok (map g l).
Proof.
  induction l as [|a l IH]; intros Hf; [done|]. cbn [for_each map].
  rewrite (Hf a (list_elem_of_here _ _)), IH; [done|].
  intros a' Hin. apply Hf. by apply list_elem_of_further.
Qed.

Lemma concat_rows_of_vec (d : DType) (vs : list (list elem)) :
  concat (map rows_of (map (vec d) vs)) = vs.
Proof. induction vs as [|v vs IH]; simpl; [done|]. by rewrite IH. Qed.

Lemma stack_vecs (d : DType) (W : nat) (vs : list (list elem)) :
  vs <> [] -> Forall (fun v => length v = W) vs ->
  stack (map (vec d) vs) = Ok (Tensor d (Rows [length vs] W vs)).
Proof.
  intros Hne HF. destruct vs as [|v vs]; [done|].
  apply Forall_cons in HF as [Hv HF].
  unfold stack. change (map (vec d) (v :: vs)) with (vec d v :: map (vec d) vs).
  cbv iota beta.
  assert (forallb (fun t => bool_decide (shape t = shape (vec d v)))
                  (map (vec d) vs) = true) as ->.
  { apply forallb_forall. intros t [w [<- Hw]]%in_map_iff.
    apply bool_decide_eq_true. unfold shape. simpl.
    rewrite Forall_forall in HF. rewrite (HF w), Hv; [done|by apply list_elem_of_In]. }
  change (vec d v :: map (vec d) vs) with (map (vec d) (v :: vs)).
  rewrite result_dtype_vec by done.
  rewrite (map_rows_as_same d) by apply Forall_dtype_vec.
  rewrite concat_rows_of_vec, length_map.
  simpl. by rewrite Hv.
Qed.

Lemma slice_rows (d : DType) (L : list nat) (W : nat) (rows : list (list elem))
    (sp : spec) :
  _slice_last_dim (Tensor d (Rows L W rows)) (start sp) (end_ sp)
  = Ok (Tensor d (Rows L (slice_len W (start sp) (spec_stop sp))
                       (map (spec_slice sp) rows))).
Proof.
  unfold _slice_last_dim, slice_last, spec_slice, spec_stop. cbn [body dtype].
  destruct (end_ sp =? -1); reflexivity.
Qed.

Lemma zip_app_map {A} (f g : A -> list elem) (l : list A) :
  zip_with app (map f l) (map g l) = map (fun a => f a ++ g a) l.
Proof. induction l as [|a l IH]; simpl; [done|]. by rewrite IH. Qed.

Lemma cat_rows_map {A} (g : spec -> A -> list elem) (specs : list spec) (l : list A) :
  specs <> [] ->
  cat_rows (map (fun sp => map (g sp) l) specs)
  = map (fun a => concat (map (fun sp => g sp a) specs)) l.
Proof.
  induction specs as [|sp specs IH]; [done|]. intros _.
  destruct specs as [|sp' specs].
  - simpl. apply map_ext. intros a. by rewrite app_nil_r.
  - change (cat_rows (map (fun sp0 => map (g sp0) l) (sp :: sp' :: specs)))
      with (zip_with app (map (g sp) l)
              (cat_rows (map (fun sp0 => map (g sp0) l) (sp' :: specs)))).
    rewrite IH by done. by rewrite zip_app_map.
Qed.

(** [torch.cat] on parts that share a non-empty leading shape. *)
Lemma cat_last_rows (ts : list tensor) (L : list nat) :
  ts <> [] -> L <> [] -> Forall (fun t => lead_of t = L /\ is_scalar t = false) ts ->
  cat_last ts
  = Ok (Tensor (result_dtype ts)
               (Rows L (sum_nat (map last_dim ts))
                     (cat_rows (map (rows_as (result_dtype ts)) ts)))).
Proof.
  intros Hne HL HF. unfold cat_last. destruct ts as [|t ts]; [done|].
  assert (existsb is_scalar (t :: ts) = false) as ->.
  { clear Hne. induction HF as [|t' ts' [_ Ht'] _ IH]; simpl; [done|].
    by rewrite Ht', IH. }
  assert (filter (fun t0 => cat_skips t0 = false) (t :: ts) = t :: ts) as ->.
  { clear Hne. induction HF as [|t' ts' [Hl Ht'] _ IH]; [done|].
    rewrite filter_cons, IH.
    assert (cat_skips t' = false) as Hs.
    { unfold cat_skips. unfold lead_of in Hl.
      destruct (body t') as [e|lead D rows]; [done|]. subst lead.
      destruct L; [done|done]. }
    by rewrite decide_True. }
  apply Forall_cons in HF as [[Hl _] HF].
  assert (forallb (fun t0 => bool_decide (lead_of t0 = lead_of t)) ts = true) as ->.
  { apply forallb_forall. intros t' Hin. apply bool_decide_eq_true.
    rewrite Forall_forall in HF. rewrite Hl. apply HF. by apply list_elem_of_In. }
  by rewrite Hl.
Qed.

(** The premises under which the action is what the store holds: every action
    key is a column of vectors of one dtype and one width, and a tensor the
    item carries on the fast path is the pre-gathered one. *)
Lemma action_parts_gathered (self : dataset) (item : gmap string value)
    (idx ep_start ep_end : Z) (dt : string -> DType)
    (raw : string -> nat -> list elem) :
  ep_start < ep_end -> 0 <= ep_start -> ep_end <= Z.of_nat (num_rows (hf self)) ->
  1 <= action_horizon self ->
  (forall sp, sp ∈ action_specs self ->
     (exists col, columns (hf self) !! original_key sp = Some col
                  /\ forall i, col i = vec (dt (original_key sp)) (raw (original_key sp) i))
     /\ forall i j, length (raw (original_key sp) i) = length (raw (original_key sp) j)) ->
  (forall sp t, sp ∈ action_specs self ->
     pregathered item (original_key sp) = Some t ->
     t = pregathered_tensor dt raw
           (clamped_indices idx ep_start ep_end (action_horizon self))
           (original_key sp)) ->
  for_each (action_part self item
              (clamped_indices idx ep_start ep_end (action_horizon self)))
           (action_specs self)
  = Ok (map (gathered_part dt raw
               (clamped_indices idx ep_start ep_end (action_horizon self)))
            (action_specs self)).
Proof.
  intros Hlt H0 Hn HH Hkeys Hpre.
  set (indices := clamped_indices idx ep_start ep_end (action_horizon self)) in *.
  assert (length indices = Z.to_nat (action_horizon self)) as Hlen
    by apply clamped_indices_length.
  assert (indices <> []) as Hind.
  { intros Hnil. rewrite Hnil in Hlen. simpl in Hlen. lia. }
  apply for_each_map. intros sp Hin.
  destruct (Hkeys sp Hin) as ((col & Hcol & Hvec) & Hw).
  unfold action_part.
  destruct (pregathered item (original_key sp)) as [t|] eqn:Hp.
  - rewrite (Hpre sp t Hin Hp). cbn. unfold pregathered_tensor.
    rewrite slice_rows. unfold gathered_part. by rewrite map_map.
  - unfold gather. unfold indices. rewrite select_clamped by done. fold indices. cbn.
    rewrite (column_present _ _ _ col Hcol) by (by destruct indices). cbn.
    assert (map col (map Z.to_nat indices)
            = map (vec (dt (original_key sp)))
                  (map (fun c => raw (original_key sp) (Z.to_nat c)) indices))
      as ->.
    { rewrite !map_map. apply map_ext. intros c. apply Hvec. }
    rewrite (stack_vecs _ (length (raw (original_key sp) O))).
    + cbn. rewrite slice_rows. unfold gathered_part. rewrite !length_map.
      by rewrite map_map.
    + intros Hnil. apply Hind. by destruct indices.
    + apply Forall_forall. intros v [c [<- _]]%list_elem_of_In%in_map_iff. apply Hw.
Qed.

Lemma join_gathered_parts (dt : string -> DType) (raw : string -> nat -> list elem)
    (specs : list spec) (indices : list Z) :
  specs <> [] -> indices <> [] ->
  join_parts (map (gathered_part dt raw indices) specs)
  = Ok (compose_action_by_gather dt raw specs indices).
Proof.
  intros Hne Hind. unfold compose_action_by_gather. cbv zeta.
  destruct specs as [|sp rest]; [done|]. destruct rest as [|sp' rest].
  - cbn [join_parts map]. unfold gathered_part, composed_row.
    cbn [map promote_all foldl sum_nat foldr concat]. rewrite Nat.add_0_r.
    do 3 f_equal. apply map_ext. intros c. by rewrite map_convert_same, app_nil_r.
  - remember (sp :: sp' :: rest) as specs eqn:Hspecs.
    set (rd := promote_all (map (fun sp => dt (original_key sp)) specs)).
    assert (join_parts (map (gathered_part dt raw indices) specs)
            = cat_last (map (gathered_part dt raw indices) specs)) as ->.
    { by rewrite Hspecs. }
    rewrite (cat_last_rows _ [length indices]).
    + assert (result_dtype (map (gathered_part dt raw indices) specs) = rd) as ->.
      { unfold result_dtype. by rewrite map_map. }
      do 3 f_equal.
      * rewrite map_map. done.
      * rewrite map_map.
        assert (forall sp0, rows_as rd (gathered_part dt raw indices sp0)
                  = map (fun c => map (convert (dt (original_key sp0)) rd)
                                      (spec_slice sp0 (raw (original_key sp0) (Z.to_nat c))))
                        indices) as Hrows.
        { intros sp0. unfold rows_as, gathered_part. cbn [rows_of body dtype].
          by rewrite map_map. }
        rewrite (map_ext _ _ Hrows).
        rewrite (cat_rows_map
                   (fun sp0 c => map (convert (dt (original_key sp0)) rd)
                                     (spec_slice sp0 (raw (original_key sp0) (Z.to_nat c)))))
          by (by rewrite Hspecs).
        done.
    + by rewrite Hspecs.
    + done.
    + apply Forall_forall. intros t [sp0 [<- _]]%list_elem_of_In%in_map_iff. done.
Qed.

Lemma compose_action_gathered (self : dataset) (item : gmap string value)
    (idx ep_start ep_end : Z) (dt : string -> DType)
    (raw : string -> nat -> list elem) :
  action_specs self <> [] ->
  episode_range self item ep_start ep_end ->
  ep_start < ep_end -> 0 <= ep_start -> ep_end <= Z.of_nat (num_rows (hf self)) ->
  1 <= action_horizon self ->
  (forall sp, sp ∈ action_specs self ->
     (exists col, columns (hf self) !! original_key sp = Some col
                  /\ forall i, col i = vec (dt (original_key sp)) (raw (original_key sp) i))
     /\ forall i j, length (raw (original_key sp) i) = length (raw (original_key sp) j)) ->
  (forall sp t, sp ∈ action_specs self ->
     pregathered item (original_key sp) = Some t ->
     t = pregathered_tensor dt raw
           (clamped_indices idx ep_start ep_end (action_horizon self))
           (original_key sp)) ->
  _compose_action self item idx
  = Ok (compose_action_by_gather dt raw (action_specs self)
          (clamped_indices idx ep_start ep_end (action_horizon self))).
Proof.
  intros Hne Hep Hlt H0 Hn HH Hkeys Hpre.
  rewrite (compose_action_unfold self item idx ep_start ep_end Hep).
  rewrite (action_parts_gathered self item idx ep_start ep_end dt raw) by done. cbn.
  apply join_gathered_parts; [done|].
  intros Hnil. apply (f_equal length) in Hnil.
  rewrite clamped_indices_length in Hnil. simpl in Hnil. lia.
Qed.

Lemma D_total_gathered (self : dataset) (item : gmap string value)
    (dt : string -> DType) (raw : string -> nat -> list elem) (indices : list Z) :
  (forall sp, sp ∈ action_specs self ->
     exists col, columns (hf self) !! original_key sp = Some col
                 /\ forall i, col i = vec (dt (original_key sp)) (raw (original_key sp) i)) ->
  (forall sp t, sp ∈ action_specs self ->
     pregathered item (original_key sp) = Some t ->
     t = pregathered_tensor dt raw indices (original_key sp)) ->
  D_total self item
  = sum_nat (map (fun sp => slice_len (length (raw (original_key sp) O))
                                      (start sp) (spec_stop sp)) (action_specs self)).
Proof.
  intros Hkeys Hpre. unfold D_total. f_equal. apply map_ext_in. intros sp Hin.
  apply list_elem_of_In in Hin. unfold part_dim. f_equal. unfold raw_dim.
  destruct (pregathered item (original_key sp)) as [t|] eqn:Hp.
  - by rewrite (Hpre sp t Hin Hp).
  - destruct (Hkeys sp Hin) as (col & -> & Hvec). by rewrite Hvec.
Qed.

(** C7.  Let every action key be a column of the frame store holding vectors of
    one dtype and one width, and let every tensor an item carries on the fast
    path be the pre-gathered one: the raw vectors of the frames at the clamped
    indices, one per row.  Then [_compose_action] returns, whichever keys take
    the fast path, the tensor the per-index strategy describes: row [t] is the
    row composed from the frame at the [t]-th clamped index.  Two items that
    differ in the keys they carry pre-gathered therefore get identical results,
    of shape [[H, D_total]]. *)
Theorem fast_path_agrees (self : dataset) (item item' : gmap string value)
    (idx ep_start ep_end : Z) (dt : string -> DType)
    (raw : string -> nat -> list elem) :
  action_specs self <> [] ->
  episode_range self item ep_start ep_end ->
  episode_range self item' ep_start ep_end ->
  ep_start < ep_end -> 0 <= ep_start -> ep_end <= Z.of_nat (num_rows (hf self)) ->
  1 <= action_horizon self ->
  (forall sp, sp ∈ action_specs self ->
     (exists col, columns (hf self) !! original_key sp = Some col
                  /\ forall i, col i = vec (dt (original_key sp)) (raw (original_key sp) i))
     /\ forall i j, length (raw (original_key sp) i) = length (raw (original_key sp) j)) ->
  (forall sp t, sp ∈ action_specs self ->
     pregathered item (original_key sp) = Some t
     \/ pregathered item' (original_key sp) = Some t ->
     t = pregathered_tensor dt raw
           (clamped_indices idx ep_start ep_end (action_horizon self))
           (original_key sp)) ->
  let out := compose_action_by_gather dt raw (action_specs self)
               (clamped_indices idx ep_start ep_end (action_horizon self)) in
  _compose_action self item idx = Ok out
  /\ _compose_action self item' idx = Ok out
  /\ shape out = [Z.to_nat (action_horizon self); D_total self item]
  /\ D_total self item' = D_total self item
  /\ (forall t, 0 <= t < action_horizon self ->
        rows_of out !! Z.to_nat t
        = Some (composed_row dt raw (action_specs self) (dtype out)
                  (Z.to_nat (Z.min (Z.max (idx + t) ep_start) (ep_end - 1))))).
Proof.
  intros Hne Hep Hep' Hlt H0 Hn HH Hkeys Hpre out.
  set (indices := clamped_indices idx ep_start ep_end (action_horizon self)) in *.
  assert (forall sp, sp ∈ action_specs self ->
            exists col, columns (hf self) !! original_key sp = Some col
                        /\ forall i, col i = vec (dt (original_key sp))
                                                 (raw (original_key sp) i)) as Hcols.
  { intros sp Hin. by destruct (Hkeys sp Hin) as [Hc _]. }
  assert (D_total self item
          = sum_nat (map (fun sp => slice_len (length (raw (original_key sp) O))
                                              (start sp) (spec_stop sp))
                         (action_specs self))) as HD.
  { apply (D_total_gathered self item dt raw indices Hcols).
    intros sp t Hin Hp. apply Hpre; [done|by left]. }
  assert (D_total self item'
          = sum_nat (map (fun sp => slice_len (length (raw (original_key sp) O))
                                              (start sp) (spec_stop sp))
                         (action_specs self))) as HD'.
  { apply (D_total_gathered self item' dt raw indices Hcols).
    intros sp t Hin Hp. apply Hpre; [done|by right]. }
  split; [|split; [|split; [|split]]].
  - apply compose_action_gathered; try done.
    intros sp t Hin Hp. apply Hpre; [done|by left].
  - apply compose_action_gathered; try done.
    intros sp t Hin Hp. apply Hpre; [done|by right].
  - unfold out, compose_action_by_gather, shape. cbn [body app].
    unfold indices. by rewrite clamped_indices_length, HD.
  - by rewrite HD, HD'.
  - intros t Ht. unfold out, compose_action_by_gather. cbn [rows_of body dtype].
    rewrite map_fmap, list_lookup_fmap.
    assert (indices !! Z.to_nat t
            = Some (Z.min (Z.max (idx + t) ep_start) (ep_end - 1))) as ->; [|done].
    apply clamped_indices_lookup. rewrite Z2Nat.id by lia. split; [done|lia].
Qed.

Lemma demo_item_lookup_episode : demo_item !! "episode_index"%string = Some (VInt 1).
Proof. unfold demo_item. rewrite !lookup_insert_ne by done. apply lookup_insert_eq. Qed.

Lemma demo_item_lookup_act : demo_item !! "act"%string = None.
Proof. unfold demo_item. by rewrite !lookup_insert_ne, lookup_empty. Qed.

Lemma demo_item_pre_pregathered :
  pregathered demo_item_pre "act"
  = Some (pregathered_tensor (fun _ => float32) demo_raw
            (clamped_indices 13 10 15 4) "act").
Proof. unfold pregathered, demo_item_pre. by rewrite lookup_insert_eq. Qed.

Lemma fast_path_agrees_witness :
  pregathered demo_item_pre "act" <> None
  /\ pregathered demo_item "act" = None
  /\ _compose_action demo demo_item_pre 13 = _compose_action demo demo_item 13
  /\ _compose_action demo demo_item 13 = Ok demo_action.
Proof.
  destruct (fast_path_agrees demo demo_item_pre demo_item 13 10 15
              (fun _ => float32) demo_raw) as (Hfast & Hslow & _).
  - discriminate.
  - apply demo_episode_range. unfold demo_item_pre.
    rewrite lookup_insert_ne by done. apply demo_item_lookup_episode.
  - apply demo_episode_range, demo_item_lookup_episode.
  - lia.
  - lia.
  - simpl. lia.
  - simpl. lia.
  - intros sp ->%list_elem_of_singleton. simpl original_key. split.
    + eexists. split; [apply lookup_singleton_eq|]. reflexivity.
    + reflexivity.
  - intros sp t ->%list_elem_of_singleton [Hp|Hp]; simpl original_key in *.
    + rewrite demo_item_pre_pregathered in Hp. by injection Hp as <-.
    + unfold pregathered in Hp. by rewrite demo_item_lookup_act in Hp.
  - split; [by rewrite demo_item_pre_pregathered|].
    split; [unfold pregathered; by rewrite demo_item_lookup_act|].
    split; [by rewrite Hfast, Hslow|]. rewrite Hslow. reflexivity.
Defined.
(** ** What [__getitem__] changes in the record *)

Lemma getitem_inv (self : dataset) (item out : gmap string value) (idx : Z) :
  __getitem__ self item idx = Ok out ->
  exists st a,
    _compose_state self item = Ok st
    /\ _compose_action self (<[state_key self := VTensor st]> item) idx = Ok a
    /\ out = <[action_key self := VTensor a]> (<[state_key self := VTensor st]> item).
Proof.
  unfold __getitem__. destruct (_compose_state self item) as [st|e]; [|done]. cbn.
  destruct (_compose_action self _ idx) as [a|e] eqn:Ha; [|done]. cbn.
  intros [= <-]. by exists st, a.
Qed.

(** C8, as the code has it.  A record [__getitem__] returns is the underlying
    record with the state key set to the composed state and then the action
    key set to the action composed from that updated record.  Its keys are
    those of the underlying record and the two configured names; every key
    other than these two keeps its value; exactly two keys are added when the
    two names differ and the underlying record has neither. *)
Theorem getitem_frame (self : dataset) (item out : gmap string value) (idx : Z) :
  __getitem__ self item idx = Ok out ->
  exists st a,
    _compose_state self item = Ok st
    /\ _compose_action self (<[state_key self := VTensor st]> item) idx = Ok a
    /\ out = <[action_key self := VTensor a]> (<[state_key self := VTensor st]> item)
    /\ dom out = {[state_key self; action_key self]} ∪ dom item
    /\ out !! action_key self = Some (VTensor a)
    /\ (state_key self <> action_key self -> out !! state_key self = Some (VTensor st))
    /\ (forall k, k <> state_key self -> k <> action_key self -> out !! k = item !! k)
    /\ (state_key self <> action_key self ->
        item !! state_key self = None -> item !! action_key self = None ->
        size out = S (S (size item))).
Proof.
  intros (st & a & Hs & Ha & ->)%getitem_inv. exists st, a.
  split; [done|]. split; [done|]. split; [done|]. split; [|split; [|split; [|split]]].
  - rewrite !dom_insert_L. apply set_eq. intros k.
    rewrite !elem_of_union, !elem_of_singleton. tauto.
  - by rewrite lookup_insert_eq.
  - intros Hne. rewrite lookup_insert_ne by done. by rewrite lookup_insert_eq.
  - intros k Hk1 Hk2. by rewrite !lookup_insert_ne.
  - intros Hne H1 H2. rewrite map_size_insert_None.
    + by rewrite map_size_insert_None.
    + by rewrite lookup_insert_ne.
Qed.

Lemma demo_getitem : __getitem__ demo demo_item 13 = Ok demo_out.
Proof. vm_compute. reflexivity. Qed.

Lemma demo_clash_getitem : __getitem__ demo_clash demo_item 13 = Ok demo_clash_out.
Proof. vm_compute. reflexivity. Qed.

Lemma demo_item_lookup_state : demo_item !! "state"%string = None.
Proof. unfold demo_item. by rewrite !lookup_insert_ne, lookup_empty. Qed.

Lemma demo_item_lookup_action : demo_item !! "action"%string = None.
Proof. unfold demo_item. by rewrite !lookup_insert_ne, lookup_empty. Qed.

Lemma demo_item_lookup_vel :
  demo_item !! "obs.vel"%string = Some (VTensor (vec float32 (map fin [4; 5]))).
Proof. unfold demo_item. by rewrite lookup_insert_ne, lookup_insert_eq. Qed.

Lemma getitem_frame_witness :
  exists out,
    __getitem__ demo demo_item 13 = Ok out
    /\ dom out = {[state_key demo; action_key demo]} ∪ dom demo_item
    /\ out !! "obs.pos"%string = demo_item !! "obs.pos"%string
    /\ size out = S (S (size demo_item)).
Proof.
  destruct (getitem_frame demo demo_item demo_out 13 demo_getitem)
    as (st & a & _ & _ & _ & Hd & _ & _ & Hk & Hsz).
  exists demo_out. split; [exact demo_getitem|]. split; [exact Hd|]. split.
  - apply Hk; discriminate.
  - apply Hsz; [discriminate|exact demo_item_lookup_state|
                exact demo_item_lookup_action].
Defined.

(** C8 as stated fails when a configured name is already a key of the
    underlying record: the record's value under that key is replaced by the
    composed tensor, and only one key is added. *)
Lemma getitem_overwrites :
  exists out,
    __getitem__ demo_clash demo_item 13 = Ok out
    /\ demo_item !! "obs.vel"%string = Some (VTensor (vec float32 (map fin [4; 5])))
    /\ out !! "obs.vel"%string = Some (VTensor (vec float32 (map fin [1; 2; 3; 4; 5])))
    /\ out !! "obs.vel"%string <> demo_item !! "obs.vel"%string
    /\ size out = S (size demo_item).
Proof.
  exists demo_clash_out. split; [exact demo_clash_getitem|].
  split; [exact demo_item_lookup_vel|].
  assert (demo_clash_out !! "obs.vel"%string = Some (VTensor demo_state)) as Hout.
  { unfold demo_clash_out. by rewrite lookup_insert_ne, lookup_insert_eq. }
  split; [exact Hout|]. split.
  - rewrite Hout, demo_item_lookup_vel. intros [= H].
  - unfold demo_clash_out. rewrite map_size_insert_None.
    + rewrite map_size_insert_Some; [done|]. rewrite demo_item_lookup_vel. by eexists.
    + rewrite lookup_insert_ne by done. exact demo_item_lookup_action.
Qed.

(** ** Non-finite values *)

Section Elements.
Variable P : elem -> Prop.
Hypothesis P_convert : forall d d' e, P e -> P (convert d d' e).

Lemma rows_as_Forall (d : DType) (t : tensor) :
  all_elems P t -> Forall (Forall P) (rows_as d t).
Proof.
  unfold all_elems, rows_as. intros H.
  assert (Forall (Forall P) (rows_of t)) as Hr.
  { apply Forall_concat. by destruct t as [dt [e|lead D rows]]. }
  clear H. induction Hr as [|r rs Hr _ IH]; cbn [map]; constructor; [|done].
  clear IH. induction Hr as [|e r He _ IH]; cbn [map]; constructor; [|done].
  by apply P_convert.
Qed.

Lemma map_rows_as_Forall (d : DType) (ts : list tensor) :
  Forall (all_elems P) ts -> Forall (Forall (Forall P)) (map (rows_as d) ts).
Proof.
  induction 1 as [|t ts Ht _ IH]; cbn [map]; constructor; [|done].
  by apply rows_as_Forall.
Qed.

Lemma py_slice_Forall (s : Z) (e : option Z) (l : list elem) :
  Forall P l -> Forall P (py_slice s e l).
Proof. intros H. unfold py_slice. by apply Forall_take, Forall_drop. Qed.

Lemma slice_all_elems (x p : tensor) (s e : Z) :
  _slice_last_dim x s e = Ok p -> all_elems P x -> all_elems P p.
Proof.
  unfold _slice_last_dim, slice_last, all_elems, elems.
  destruct (body x) as [el|lead D rows]; [by destruct (e =? -1)|].
  intros Hp Hx. apply Forall_concat in Hx.
  assert (forall stop, Forall (Forall P) (map (py_slice s stop) rows)) as Hm.
  { intros stop. clear Hp. induction Hx; simpl; constructor;
      [by apply py_slice_Forall|done]. }
  destruct (e =? -1); injection Hp as <-; simpl; apply Forall_concat, Hm.
Qed.

Lemma zip_app_Forall (a b : list (list elem)) :
  Forall (Forall P) a -> Forall (Forall P) b -> Forall (Forall P) (zip_with app a b).
Proof.
  intros Ha. revert b. induction Ha as [|r a Hr _ IH]; intros b Hb; [constructor|].
  destruct Hb as [|r' b Hr' Hb]; simpl; constructor.
  - by apply Forall_app.
  - by apply IH.
Qed.

Lemma cat_rows_Forall (rs : list (list (list elem))) :
  Forall (Forall (Forall P)) rs -> Forall (Forall P) (cat_rows rs).
Proof.
  induction 1 as [|r rs Hr Hrs IH]; [constructor|].
  destruct rs as [|r' rs]; [done|].
  change (cat_rows (r :: r' :: rs)) with (zip_with app r (cat_rows (r' :: rs))).
  by apply zip_app_Forall.
Qed.

Lemma cat_last_all_elems (ts : list tensor) (out : tensor) :
  cat_last ts = Ok out -> Forall (all_elems P) ts -> all_elems P out.
Proof.
  unfold cat_last. destruct ts as [|t ts]; [done|].
  destruct (existsb is_scalar (t :: ts)); [done|].
  intros Hc HF.
  assert (Forall (all_elems P) (filter (fun t0 => cat_skips t0 = false) (t :: ts))) as HF'.
  { apply Forall_forall. intros t' [_ Hin]%list_elem_of_filter.
    rewrite Forall_forall in HF. by apply HF. }
  destruct (filter _ (t :: ts)) as [|t0 ts'].
  - injection Hc as <-. unfold all_elems. simpl. constructor.
  - destruct (forallb _ ts'); [|done]. injection Hc as <-.
    set (rd := result_dtype (t :: ts)).
    change (Forall P (concat (cat_rows (map (rows_as rd) (t0 :: ts'))))).
    by apply Forall_concat, cat_rows_Forall, map_rows_as_Forall.
Qed.

Lemma join_parts_all_elems (parts : list tensor) (out : tensor) :
  join_parts parts = Ok out -> Forall (all_elems P) parts -> all_elems P out.
Proof.
  destruct parts as [|p [|q parts]]; cbn [join_parts]; [done| |].
  - intros [= <-] HF. by apply Forall_cons in HF as [HF _].
  - apply cat_last_all_elems.
Qed.

Lemma stack_all_elems (ts : list tensor) (out : tensor) :
  stack ts = Ok out -> Forall (all_elems P) ts -> all_elems P out.
Proof.
  unfold stack. destruct ts as [|t ts]; [done|].
  destruct (forallb _ ts); [|done]. intros [= <-] HF.
  set (l := t :: ts) in *. set (rd := result_dtype l).
  assert (Forall (Forall P) (concat (map (rows_as rd) l))) as Hr.
  { by apply Forall_concat, map_rows_as_Forall. }
  destruct (body t) as [e|lead D rows].
  - change (Forall P (concat [concat (concat (map (rows_as rd) l))])).
    cbn [concat]. rewrite app_nil_r. by apply Forall_concat.
  - change (Forall P (concat (concat (map (rows_as rd) l)))). by apply Forall_concat.
Qed.

Lemma for_each_Forall {A B} (f : A -> res B) (Q : B -> Prop) (l : list A)
    (bs : list B) :
  for_each f l = Ok bs -> (forall a b, a ∈ l -> f a = Ok b -> Q b) -> Forall Q bs.
Proof.
  revert bs. induction l as [|a l IH]; intros bs; cbn [for_each].
  - intros [= <-] _. constructor.
  - destruct (f a) as [b|e] eqn:Hb; [|done]. cbn.
    destruct (for_each f l) as [bs'|e]; [|done]. cbn. intros [= <-] HQ.
    constructor.
    + apply (HQ a b); [apply list_elem_of_here|done].
    + apply IH; [done|]. intros a' b' Hin. apply HQ. by apply list_elem_of_further.
Qed.

Lemma compose_state_all_elems (self : dataset) (item : gmap string value)
    (st : tensor) :
  (forall k v t, item !! k = Some v -> _ensure_tensor v = Ok t -> all_elems P t) ->
  _compose_state self item = Ok st -> all_elems P st.
Proof.
  intros Hitem. unfold _compose_state.
  destruct (for_each _ _) as [parts|e] eqn:Hparts; [|done]. cbn.
  intros Hj. apply (join_parts_all_elems parts); [done|].
  eapply for_each_Forall; [exact Hparts|].
  intros sp p _. unfold state_part, getkey.
  destruct (item !! original_key sp) as [v|] eqn:Hv; [|done]. cbn.
  destruct (_ensure_tensor v) as [t|e] eqn:Ht; [|done]. cbn.
  intros Hs. eapply slice_all_elems; [exact Hs|]. by eapply Hitem.
Qed.

Lemma compose_action_all_elems (self : dataset) (item : gmap string value)
    (idx : Z) (a : tensor) :
  (forall k v t, item !! k = Some v -> _ensure_tensor v = Ok t -> all_elems P t) ->
  (forall k col i, columns (hf self) !! k = Some col -> all_elems P (col i)) ->
  _compose_action self item idx = Ok a -> all_elems P a.
Proof.
  intros Hitem Hstore. unfold _compose_action.
  destruct (episode_index_of item) as [ep_idx|e]; [|done]. cbn.
  destruct (index_int (episode_from self) ep_idx) as [ep_start|e]; [|done]. cbn.
  destruct (index_int (episode_to self) ep_idx) as [ep_end|e]; [|done]. cbn.
  destruct (for_each _ _) as [parts|e] eqn:Hparts; [|done]. cbn.
  intros Hj. apply (join_parts_all_elems parts); [done|].
  eapply for_each_Forall; [exact Hparts|].
  intros sp p _. unfold action_part.
  destruct (pregathered item (original_key sp)) as [t|] eqn:Hp; cbn.
  - apply pregathered_ndim in Hp as [Hp _].
    intros Hs. eapply slice_all_elems; [exact Hs|]. by eapply (Hitem _ (VTensor t)).
  - unfold gather. destruct (select _ _) as [rows|e]; [|done]. cbn.
    unfold column. destruct (columns (hf self) !! original_key sp) as [col|] eqn:Hc;
      [|done]. destruct rows as [|r rows]; [done|].
    generalize (r :: rows). intros rows'. cbn.
    destruct (stack (map col rows')) as [x|e] eqn:Hx; [|done]. cbn.
    intros Hs. eapply slice_all_elems; [exact Hs|].
    eapply stack_all_elems; [exact Hx|].
    apply Forall_forall. intros t [i [<- _]]%list_elem_of_In%in_map_iff.
    by eapply Hstore.
Qed.

End Elements.

Lemma convert_finite (d d' : DType) (e : elem) :
  is_finite (convert d d' e) = is_finite e.
Proof. by destruct d, d', e. Qed.

Lemma Forall_finite_convert (d rd : DType) (l : list elem) :
  Forall (fun e => is_finite e = true) (map (convert d rd) l)
  <-> Forall (fun e => is_finite e = true) l.
Proof.
  rewrite !Forall_forall. split.
  - intros H e He. rewrite <- (convert_finite d rd). apply H.
    apply list_elem_of_In, in_map, list_elem_of_In, He.
  - intros H e' [e [<- He]]%list_elem_of_In%in_map_iff. rewrite convert_finite.
    apply H. by apply list_elem_of_In.
Qed.

Lemma all_finite_vec (d : DType) (l : list elem) :
  all_finite (vec d l) <-> Forall (fun e => is_finite e = true) l.
Proof. unfold all_finite, all_elems, elems, vec. simpl. by rewrite app_nil_r. Qed.

Lemma finite_converted_slices (rd : DType) (fields : list (DType * list elem))
    (slices : list (list elem)) :
  length fields = length slices ->
  Forall (fun e => is_finite e = true)
         (concat (zip_with (fun f s => map (convert f.1 rd) s) fields slices))
  <-> Forall (Forall (fun e => is_finite e = true)) slices.
Proof.
  revert slices. induction fields as [|f fields IH]; intros [|s slices]; try done.
  intros [= Hlen]. cbn [zip_with concat].
  rewrite Forall_app, Forall_cons, Forall_finite_convert, (IH slices Hlen). done.
Qed.

Lemma all_finite_gathered (dt : string -> DType) (raw : string -> nat -> list elem)
    (specs : list spec) (indices : list Z) :
  all_finite (compose_action_by_gather dt raw specs indices)
  <-> forall c sp, c ∈ indices -> sp ∈ specs ->
        Forall (fun e => is_finite e = true)
               (spec_slice sp (raw (original_key sp) (Z.to_nat c))).
Proof.
  unfold all_finite, all_elems, elems, compose_action_by_gather. cbn [body].
  set (rd := promote_all _). rewrite Forall_concat, Forall_forall. split.
  - intros H c sp Hc Hsp.
    specialize (H (composed_row dt raw specs rd (Z.to_nat c))).
    unfold composed_row in H. rewrite Forall_concat, Forall_forall in H.
    apply (Forall_finite_convert (dt (original_key sp)) rd). apply H.
    + apply list_elem_of_In, in_map_iff. exists c. split; [done|by apply list_elem_of_In].
    + apply list_elem_of_In, in_map_iff. exists sp. split; [done|by apply list_elem_of_In].
  - intros H row [c [<- Hc]]%list_elem_of_In%in_map_iff.
    unfold composed_row. rewrite Forall_concat, Forall_forall.
    intros l [sp [<- Hsp]]%list_elem_of_In%in_map_iff.
    apply Forall_finite_convert, H; by apply list_elem_of_In.
Qed.

(** C9, as the code has it.  The wrapper has no finiteness check and raises
    nothing of its own.  A composed tensor holds raw numbers, converted to its
    dtype where [torch.cat] or [torch.stack] promote, and nothing else: so
    whatever holds of every number in the item and in the rows of the frame
    store and survives conversion, finiteness in particular, holds of every
    number in the returned record.  And a non-finite raw number in a selected
    slice is passed through: on a frame of vectors the composed state is
    finite exactly when every selected slice is, and with the action keys
    columns of vectors the composed action is finite exactly when the slices
    of the frames at the clamped indices are. *)
Theorem composed_values_are_raw_values (P : elem -> Prop) (self : dataset)
    (item out : gmap string value) (idx : Z) :
  (forall d d' e, P e -> P (convert d d' e)) ->
  (forall k v t, item !! k = Some v -> _ensure_tensor v = Ok t -> all_elems P t) ->
  (forall k col i, columns (hf self) !! k = Some col -> all_elems P (col i)) ->
  __getitem__ self item idx = Ok out ->
  (forall k v t, out !! k = Some v -> _ensure_tensor v = Ok t -> all_elems P t)
  /\ (forall fields,
        Forall2 (fun sp f => holds_vector item (original_key sp) f)
                (state_specs self) fields ->
        exists st,
          _compose_state self item = Ok st
          /\ (all_finite st
              <-> Forall (Forall (fun e => is_finite e = true))
                         (zip_with (fun sp f => spec_slice sp f.2)
                                   (state_specs self) fields)))
  /\ (forall st ep_start ep_end dt raw,
        _compose_state self item = Ok st ->
        episode_range self (<[state_key self := VTensor st]> item) ep_start ep_end ->
        ep_start < ep_end -> 0 <= ep_start ->
        ep_end <= Z.of_nat (num_rows (hf self)) ->
        1 <= action_horizon self ->
        (forall sp, sp ∈ action_specs self ->
           (exists col, columns (hf self) !! original_key sp = Some col
                        /\ forall i, col i = vec (dt (original_key sp))
                                                 (raw (original_key sp) i))
           /\ forall i j, length (raw (original_key sp) i)
                          = length (raw (original_key sp) j)) ->
        (forall sp t, sp ∈ action_specs self ->
           pregathered (<[state_key self := VTensor st]> item) (original_key sp)
           = Some t ->
           t = pregathered_tensor dt raw
                 (clamped_indices idx ep_start ep_end (action_horizon self))
                 (original_key sp)) ->
        exists a,
          out !! action_key self = Some (VTensor a)
          /\ (all_finite a
              <-> forall c sp,
                    c ∈ clamped_indices idx ep_start ep_end (action_horizon self) ->
                    sp ∈ action_specs self ->
                    Forall (fun e => is_finite e = true)
                           (spec_slice sp (raw (original_key sp) (Z.to_nat c))))).
Proof.
  intros HP Hitem Hstore (st & a & Hs & Ha & ->)%getitem_inv.
  pose proof (compose_state_all_elems P HP self item st Hitem Hs) as Hst.
  assert (forall k v t, <[state_key self := VTensor st]> item !! k = Some v ->
                        _ensure_tensor v = Ok t -> all_elems P t) as Hitem1.
  { intros k v t. destruct (decide (state_key self = k)) as [<-|Hne].
    - rewrite lookup_insert_eq. by intros [= <-] [= <-].
    - rewrite lookup_insert_ne by done. apply Hitem. }
  pose proof (compose_action_all_elems P HP self _ idx a Hitem1 Hstore Ha) as Hact.
  split; [|split].
  - intros k v t. destruct (decide (action_key self = k)) as [<-|Hne].
    + rewrite lookup_insert_eq. by intros [= <-] [= <-].
    + rewrite lookup_insert_ne by done. apply Hitem1.
  - intros fields HF.
    assert (state_specs self <> []) as Hne.
    { intros Hnil. unfold _compose_state in Hs. by rewrite Hnil in Hs. }
    eexists. split; [by apply compose_state_fields|].
    rewrite all_finite_vec. apply finite_converted_slices.
    rewrite length_zip_with. apply Forall2_length in HF. lia.
  - intros st' ep_start ep_end dt raw Hs' Hep Hlt H0 Hn HH Hkeys Hpre.
    assert (st' = st) as -> by congruence.
    assert (action_specs self <> []) as Hne.
    { intros Hnil.
      rewrite (compose_action_unfold self _ idx ep_start ep_end Hep), Hnil in Ha.
      done. }
    rewrite (compose_action_gathered self _ idx ep_start ep_end dt raw) in Ha by done.
    injection Ha as <-. eexists. split; [apply lookup_insert_eq|].
    apply all_finite_gathered.
Qed.

Lemma demo_item_finite (k : string) (v : value) (t : tensor) :
  demo_item !! k = Some v -> _ensure_tensor v = Ok t -> all_finite t.
Proof.
  unfold demo_item. intros Hk.
  apply lookup_insert_Some in Hk as [[_ Hk]|[_ Hk]];
    [subst v; intros [= <-]; by repeat constructor|].
  apply lookup_insert_Some in Hk as [[_ Hk]|[_ Hk]];
    [subst v; intros [= <-]; by repeat constructor|].
  apply lookup_insert_Some in Hk as [[_ Hk]|[_ Hk]];
    [subst v; intros [= <-]; by repeat constructor|].
  by rewrite lookup_empty in Hk.
Qed.

Lemma composed_values_are_raw_values_witness :
  exists out st a,
    __getitem__ demo demo_item 13 = Ok out
    /\ out !! "state"%string = Some (VTensor st) /\ all_finite st
    /\ out !! "action"%string = Some (VTensor a) /\ all_finite a.
Proof.
  assert (forall k col i, columns (hf demo) !! k = Some col ->
                          all_elems (fun e => is_finite e = true) (col i)) as Hstore.
  { intros k col i [_ ->]%demo_store_column. by repeat constructor. }
  destruct (composed_values_are_raw_values
              (fun e => is_finite e = true) demo demo_item demo_out 13
              (fun d d' e H => eq_trans (convert_finite d d' e) H)
              demo_item_finite Hstore demo_getitem) as [Hfin _].
  assert (demo_out !! "state"%string = Some (VTensor demo_state)) as Hst.
  { unfold demo_out. by rewrite lookup_insert_ne, lookup_insert_eq. }
  assert (demo_out !! "action"%string = Some (VTensor demo_action)) as Hact.
  { unfold demo_out. by rewrite lookup_insert_eq. }
  exists demo_out, demo_state, demo_action.
  split; [exact demo_getitem|]. split; [exact Hst|].
  split; [exact (Hfin _ _ _ Hst eq_refl)|]. split; [exact Hact|].
  exact (Hfin _ _ _ Hact eq_refl).
Defined.

Lemma demo_nan_getitem : __getitem__ demo demo_item_nan 13 = Ok demo_nan_out.
Proof. vm_compute. reflexivity. Qed.

(** C9 as stated fails: a NaN in a raw field is copied into the composed state
    and returned; nothing is raised. *)
Lemma nan_passes_through :
  exists out,
    __getitem__ demo demo_item_nan 13 = Ok out
    /\ out !! "state"%string
       = Some (VTensor (vec float32 [fin 1; fin 2; fin 3; NaN; fin 5]))
    /\ ~ all_finite (vec float32 [fin 1; fin 2; fin 3; NaN; fin 5]).
Proof.
  exists demo_nan_out. split; [exact demo_nan_getitem|]. split.
  - unfold demo_nan_out. by rewrite lookup_insert_ne, lookup_insert_eq.
  - intros H. unfold all_finite, all_elems in H. simpl in H.
    rewrite Forall_forall in H. specialize (H NaN). simpl in H.
    assert (NaN ∈ [fin 1; fin 2; fin 3; NaN; fin 5]) as Hin
      by (do 3 apply list_elem_of_further; apply list_elem_of_here).
    specialize (H Hin). discriminate.
Qed.

(** ** RunningStats: merging partitions *)

Module RunningStatsLaws.
Import RunningStats.
Local Open Scope Q_scope.

(** Vectors are compared component by component. *)
















(** The scalar identities behind the laws, one component at a time; the sums
    of counts are named so that the identities apply to a goal as it stands. *)
Section Scalar.
Variables (ma mb mc Ma Mb Mc x p q r pq qp qr pqr pqr' p1 : Q).
Hypotheses (Hpq : pq = p + q) (Hqp : qp = q + p) (Hqr : qr = q + r)
           (Hpqr : pqr = p + q + r) (Hpqr' : pqr' = p + (q + r))
           (Hp1 : p1 = p + 1).








End Scalar.




















(** The specification's example: samples 1, 3, then 5, for a 1-D key. *)
Example stats_example :
  exists a, update empty [[1]; [3]; [5]] = inr a
            /\ acc_eq a {| count := 3; mean := [3]; m2 := [8] |}.
Proof. eexists. split; [reflexivity|]. split; [reflexivity|]. split; by repeat constructor. Qed.

End RunningStatsLaws.

(** * Further properties of the code *)

(** ** Resolving the modality file *)

Lemma nonempty_str_Some (v : yaml) (s : string) :
  nonempty_str v = Some s <-> v = YStr s /\ s <> ""%string.
Proof.
  destruct v as [| | |s'| |]; simpl; try (split; [done|by intros [? _]]).
  destruct s' as [|c s']; simpl.
  - split; [done|]. intros [[= <-] Hne]. done.
  - split; [by intros [= <-]|]. by intros [[= <-] _].
Qed.

Lemma first_config_path_Some (lerobot_config : gmap string yaml)
    (keys : list string) (s : string) :
  first_config_path lerobot_config keys = Some s ->
  s <> ""%string /\ exists k, k ∈ keys /\ lerobot_config !! k = Some (YStr s).
Proof.
  induction keys as [|k keys IH]; simpl; [done|].
  destruct (nonempty_str (default YNone (lerobot_config !! k))) as [s'|] eqn:Hk.
  - intros [= <-]. apply nonempty_str_Some in Hk as [Hv Hne]. split; [done|].
    exists k. split; [apply list_elem_of_here|].
    destruct (lerobot_config !! k); simpl in Hv; by subst.
  - intros [Hne (k' & Hin & Hk')]%IH. split; [done|]. exists k'.
    split; [by apply list_elem_of_further|done].
Qed.

Lemma first_config_path_None (lerobot_config : gmap string yaml) (keys : list string) :
  first_config_path lerobot_config keys = None <->
  forall k s, k ∈ keys -> lerobot_config !! k = Some (YStr s) -> s = ""%string.
Proof.
  induction keys as [|k keys IH]; simpl.
  - split; [|done]. intros _ k s Hin. by apply elem_of_nil in Hin.
  - destruct (nonempty_str (default YNone (lerobot_config !! k))) as [s'|] eqn:Hk.
    + split; [done|]. intros Hall. apply nonempty_str_Some in Hk as [Hv Hne].
      destruct Hne. apply (Hall k); [apply list_elem_of_here|].
      destruct (lerobot_config !! k); simpl in Hv; by subst.
    + rewrite IH. split.
      * intros Hall k' s [->|Hin]%elem_of_cons Hs; [|by eapply Hall].
        rewrite Hs in Hk. simpl in Hk. destruct s; [done|discriminate].
      * intros Hall k' s Hin. apply Hall. by apply list_elem_of_further.
Qed.

Lemma resolve_cases (modality_json : option string)
    (lerobot_config : gmap string yaml) :
  (exists s, modality_json = Some s /\ s <> ""%string
             /\ resolve_modality_json modality_json lerobot_config = Some s)
  \/ ((modality_json = None \/ modality_json = Some ""%string)
      /\ resolve_modality_json modality_json lerobot_config
         = first_config_path lerobot_config config_keys).
Proof.
  destruct modality_json as [[|c s]|].
  - right. split; [by right|done].
  - left. by exists (String c s).
  - right. split; [by left|done].
Qed.

(** X1. A non-empty [--modality_json] given on the command line is returned as
    it is, whatever the configuration holds. *)
Theorem resolve_cli_first (s : string) (lerobot_config : gmap string yaml) :
  s <> ""%string -> resolve_modality_json (Some s) lerobot_config = Some s.
Proof. intros Hs. unfold resolve_modality_json. by destruct s. Qed.

Lemma resolve_cli_first_witness :
  resolve_modality_json (Some "cli.json"%string)
    {[ "modality_json"%string := YStr "config.json" ]} = Some "cli.json"%string.
Proof. apply resolve_cli_first. discriminate. Defined.

(** X2. [resolve_modality_json] never returns the empty string, and it returns
    [None] exactly when the command-line value is absent or empty and none of
    the keys "modality_json", "modality_path", "modality" holds a non-empty
    string. *)
Theorem resolve_none_iff (modality_json : option string)
    (lerobot_config : gmap string yaml) :
  resolve_modality_json modality_json lerobot_config <> Some ""%string
  /\ (resolve_modality_json modality_json lerobot_config = None <->
      (modality_json = None \/ modality_json = Some ""%string)
      /\ forall k s, k ∈ config_keys ->
                     lerobot_config !! k = Some (YStr s) -> s = ""%string).
Proof.
  destruct (resolve_cases modality_json lerobot_config)
    as [(s & -> & Hs & ->)|[Hcli ->]].
  - split; [by intros [= ->]|]. split; [done|]. by intros [[?|[= ->]] _].
  - split; [by intros [Hne _]%first_config_path_Some|].
    rewrite first_config_path_None. split; [by intros H|by intros [_ H]].
Qed.

(** X3. Without a usable command-line value the configuration keys are consulted
    in the order "modality_json", "modality_path", "modality": a key is used
    only when every earlier key holds no non-empty string. *)
Theorem resolve_config_order (modality_json : option string)
    (lerobot_config : gmap string yaml) (s : string) :
  modality_json = None \/ modality_json = Some ""%string ->
  s <> ""%string ->
  (lerobot_config !! "modality_json"%string = Some (YStr s) ->
   resolve_modality_json modality_json lerobot_config = Some s)
  /\ (nonempty_str (default YNone (lerobot_config !! "modality_json"%string)) = None ->
      lerobot_config !! "modality_path"%string = Some (YStr s) ->
      resolve_modality_json modality_json lerobot_config = Some s)
  /\ (nonempty_str (default YNone (lerobot_config !! "modality_json"%string)) = None ->
      nonempty_str (default YNone (lerobot_config !! "modality_path"%string)) = None ->
      lerobot_config !! "modality"%string = Some (YStr s) ->
      resolve_modality_json modality_json lerobot_config = Some s).
Proof.
  intros Hcli Hs.
  assert (nonempty_str (YStr s) = Some s) as Hv by (by apply nonempty_str_Some).
  assert (resolve_modality_json modality_json lerobot_config
          = first_config_path lerobot_config config_keys) as ->.
  { by destruct Hcli as [->| ->]. }
  unfold config_keys. cbn [first_config_path]. split; [|split].
  - intros ->. simpl default. by rewrite Hv.
  - intros -> ->. simpl default. by rewrite Hv.
  - intros -> -> ->. simpl default. by rewrite Hv.
Qed.

Lemma resolve_config_order_witness :
  resolve_modality_json (Some ""%string)
    (<["modality_json" := YInt 3]> {[ "modality_path"%string := YStr "m.json" ]})
  = Some "m.json"%string.
Proof.
  destruct (resolve_config_order (Some ""%string)
              (<["modality_json" := YInt 3]>
                 {[ "modality_path"%string := YStr "m.json" ]}) "m.json")
    as (_ & Hpath & _); [by right|discriminate|].
  apply Hpath.
  - by rewrite lookup_insert_eq.
  - by rewrite lookup_insert_ne, lookup_singleton_eq.
Defined.

(** ** Delta timestamps for the action keys *)

Lemma parse_entry_absent (entry : string * cfg) :
  cfg_original_key entry.2 = None -> parse_entry entry = Err (KeyError "original_key").
Proof. intros H. unfold parse_entry. by rewrite H. Qed.

Lemma parse_entry_present (entry : string * cfg) (k : string) :
  cfg_original_key entry.2 = Some k ->
  exists sp, parse_entry entry = Ok sp /\ original_key sp = k.
Proof. intros H. unfold parse_entry. rewrite H. by eexists. Qed.

Lemma orig_keys_parse (block : list (string * cfg)) :
  match orig_keys block with
  | inr ks => exists specs, _parse_vector_specs block = Ok specs
                            /\ ks = map original_key specs
  | inl e => e = SKeyError "original_key"
             /\ _parse_vector_specs block = Err (KeyError "original_key")
  end.
Proof.
  unfold _parse_vector_specs. induction block as [|entry block IH]; cbn [orig_keys for_each].
  - by exists [].
  - destruct (cfg_original_key entry.2) as [k|] eqn:Hk.
    + destruct (parse_entry_present entry k Hk) as (sp & -> & <-).
      destruct (orig_keys block) as [e|ks].
      * destruct IH as [-> ->]. done.
      * destruct IH as (specs & -> & ->). cbn. eexists. split; [reflexivity|done].
    + by rewrite (parse_entry_absent entry Hk).
Qed.

Lemma dict_of_keys_lookup {V} (keys : list string) (v : V) (k : string) :
  dict_of_keys keys v !! k = if decide (k ∈ keys) then Some v else None.
Proof.
  unfold dict_of_keys.
  assert (forall d0 : gmap string V,
            foldl (fun d k' => <[k' := v]> d) d0 keys !! k
            = if decide (k ∈ keys) then Some v else d0 !! k) as H.
  { induction keys as [|k' keys IH]; intros d0; cbn [foldl].
    - case_decide as Hin; [by apply elem_of_nil in Hin|done].
    - rewrite IH. repeat case_decide; try done.
      + exfalso. by eauto using list_elem_of_further.
      + apply elem_of_cons in H0 as [->|?]; [by rewrite lookup_insert_eq|done].
      + rewrite lookup_insert_ne; [done|]. intros ->. apply H0, list_elem_of_here. }
  rewrite H. by rewrite lookup_empty.
Qed.

(** X4. When [build_delta_timestamps] returns a dictionary, its keys are exactly
    the original keys of the action specs the wrapper parses from the same
    modality file, and every key maps to the same [H] offsets, the [t]-th being
    [t / fps]. *)
Theorem delta_timestamps_keys {F} (true_div : Z -> Z -> F) (fps action_horizon : Z)
    (m : gmap string (list (string * cfg))) (d : gmap string (list F)) :
  build_delta_timestamps true_div fps action_horizon (Some m) = inr (Some d) ->
  exists specs,
    _parse_vector_specs (default [] (m !! "action"%string)) = Ok specs
    /\ (forall k, is_Some (d !! k) <-> k ∈ map original_key specs)
    /\ (forall k offsets, d !! k = Some offsets ->
          length offsets = Z.to_nat action_horizon
          /\ forall t, 0 <= t < action_horizon ->
                       offsets !! Z.to_nat t = Some (true_div t fps)).
Proof.
  unfold build_delta_timestamps.
  pose proof (orig_keys_parse (default [] (m !! "action"%string))) as Hk.
  destruct (orig_keys _) as [e|ks]; [done|].
  destruct Hk as (specs & Hp & ->).
  destruct ((fps =? 0) && (0 <? action_horizon)); [done|]. intros [= <-].
  exists specs. split; [done|]. split.
  - intros k. rewrite dict_of_keys_lookup. case_decide; [|split; [by intros [? ?]|done]].
    split; [done|]. intros _. by eexists.
  - intros k offsets. rewrite dict_of_keys_lookup. case_decide; [|done].
    intros [= <-]. split.
    + unfold range. by rewrite !length_map, length_seq.
    + intros t Ht. rewrite map_fmap, list_lookup_fmap.
      assert (range action_horizon !! Z.to_nat t = Some t) as ->; [|done].
      apply range_lookup. split; lia.
Qed.

Lemma delta_timestamps_keys_witness :
  let m : gmap string (list (string * cfg)) :=
    {[ "action"%string :=
         [("arm"%string,
           {| cfg_original_key := Some "act"%string;
              cfg_start := Some 0; cfg_end := None |})] ]} in
  exists d : gmap string (list Q),
    build_delta_timestamps (fun t fps => inject_Z t / inject_Z fps)%Q 30 4 (Some m)
    = inr (Some d)
    /\ (forall k, is_Some (d !! k) <-> k ∈ ["act"%string]).
Proof.
  intros m.
  assert (exists d, build_delta_timestamps
                      (fun t fps => inject_Z t / inject_Z fps)%Q 30 4 (Some m)
                    = inr (Some d)) as [d Hd].
  { unfold build_delta_timestamps, m. rewrite lookup_singleton_eq. by eexists. }
  exists d. split; [exact Hd|].
  destruct (delta_timestamps_keys _ 30 4 m d Hd) as (specs & Hp & Hk & _).
  unfold m in Hp. rewrite lookup_singleton_eq in Hp. injection Hp as <-. exact Hk.
Defined.

(** X5. [build_delta_timestamps] fails on a modality file exactly in two ways:
    with the [KeyError] of a missing "original_key", exactly when the wrapper's
    parser fails on the action block; and otherwise with [ZeroDivisionError],
    exactly when [fps] is zero and the horizon is positive. *)
Theorem delta_timestamps_errors {F} (true_div : Z -> Z -> F) (fps action_horizon : Z)
    (m : gmap string (list (string * cfg))) :
  let block := default [] (m !! "action"%string) in
  (forall e, build_delta_timestamps true_div fps action_horizon (Some m) = inl e ->
             e = SKeyError "original_key" \/ e = SZeroDivisionError)
  /\ (build_delta_timestamps true_div fps action_horizon (Some m)
      = inl (SKeyError "original_key")
      <-> _parse_vector_specs block = Err (KeyError "original_key"))
  /\ (build_delta_timestamps true_div fps action_horizon (Some m)
      = inl SZeroDivisionError
      <-> (exists specs, _parse_vector_specs block = Ok specs)
          /\ fps = 0 /\ 0 < action_horizon).
Proof.
  intros block. unfold build_delta_timestamps. fold block.
  pose proof (orig_keys_parse block) as Hk.
  destruct (orig_keys block) as [e|ks].
  - destruct Hk as [-> Hp]. split; [intros e [= <-]; by left|]. split.
    + done.
    + split; [done|]. intros [[specs Hs] _]. congruence.
  - destruct Hk as (specs & Hp & ->).
    destruct ((fps =? 0) && (0 <? action_horizon)) eqn:Hz.
    + split; [intros e [= <-]; by right|]. split.
      * split; [done|]. congruence.
      * split; [|done]. intros _. split; [by eexists|]. lia.
    + split; [done|]. split.
      * split; [done|]. congruence.
      * split; [done|]. intros (_ & -> & HH). simpl in Hz. lia.
Qed.

(** ** Loading the configuration *)

Lemma load_config_ok (doc : document) (l ld : nat)
    (config data : gmap string pyval) :
  root doc = PRef l -> objects doc !! l = Some (OMap config) ->
  config !! "data"%string = Some (PRef ld) -> objects doc !! ld = Some (OMap data) ->
  load_config doc
  = inr {| root := root doc;
           objects := <[ld := OMap (<["model_type" := default PNone
                                                       (config !! "model_type"%string)]>
                                      data)]> (objects doc) |}.
Proof.
  intros Hr Hl Hd Hld. unfold load_config, mapping_at. by rewrite Hr, Hl, Hd, Hld.
Qed.

(** X6. On a configuration whose "data" entry is a mapping, [load_config]
    assigns the top-level "model_type" ([None] when there is none) to
    [data.model_type] in place and without a test, so a value [data.model_type]
    held is overwritten, whatever the source's comment ("if not already set")
    says.  The assignment changes one object, the mapping "data" refers to,
    and nothing else; the top-level mapping changes only if it is that
    object.  A key that holds the same reference, an alias of the anchored
    "data" node, therefore shows the new entry too.  Loading the result again
    changes nothing. *)
Theorem load_config_sets_model_type (doc : document) (l ld : nat)
    (config data : gmap string pyval) :
  root doc = PRef l -> objects doc !! l = Some (OMap config) ->
  config !! "data"%string = Some (PRef ld) -> objects doc !! ld = Some (OMap data) ->
  exists doc' data',
    load_config doc = inr doc'
    /\ root doc' = root doc
    /\ objects doc' !! ld = Some (OMap data')
    /\ data' !! "model_type"%string
       = Some (default PNone (config !! "model_type"%string))
    /\ (forall k, k <> "model_type"%string -> data' !! k = data !! k)
    /\ (forall l', l' <> ld -> objects doc' !! l' = objects doc !! l')
    /\ (forall k, config !! k = Some (PRef ld) ->
          mapping_at (objects doc') (PRef ld) = Some (ld, data'))
    /\ (l <> ld -> forall k, config_item doc' k = config !! k)
    /\ load_config doc' = inr doc'.
Proof.
  intros Hr Hl Hd Hld. rewrite (load_config_ok doc l ld config data) by done.
  set (mt := default PNone (config !! "model_type"%string)).
  set (data' := <["model_type" := mt]> data).
  set (doc' := {| root := root doc; objects := <[ld := OMap data']> (objects doc) |}).
  assert (objects doc' !! ld = Some (OMap data')) as Hld'
    by apply lookup_insert_eq.
  exists doc', data'. split; [done|]. split; [done|]. split; [done|].
  split; [apply lookup_insert_eq|].
  split; [by intros k Hk; apply lookup_insert_ne|].
  split; [by intros l' Hl'; apply lookup_insert_ne|].
  split; [intros k _; unfold mapping_at; by rewrite Hld'|].
  split.
  - intros Hne k. unfold config_item, mapping_at. cbn [root objects doc'].
    by rewrite Hr, lookup_insert_ne, Hl.
  - destruct (decide (l = ld)) as [->|Hne].
    + assert (config = data) as -> by congruence.
      assert (data' !! "data"%string = Some (PRef ld)) as Hd'.
      { unfold data'. by rewrite lookup_insert_ne. }
      rewrite (load_config_ok doc' ld ld data' data') by done.
      unfold doc'. cbn [root objects]. f_equal. f_equal.
      rewrite insert_insert_eq. f_equal. f_equal.
      unfold data' at 1. rewrite lookup_insert_eq. cbn [default].
      unfold data'. by rewrite insert_insert_eq.
    + assert (objects doc' !! l = Some (OMap config)) as Hl'.
      { unfold doc'. cbn [objects]. by rewrite lookup_insert_ne. }
      rewrite (load_config_ok doc' l ld config data') by done.
      unfold doc'. cbn [root objects]. f_equal. f_equal.
      rewrite insert_insert_eq. f_equal. f_equal.
      unfold data'. by rewrite insert_insert_eq.
Qed.

Lemma load_config_sets_model_type_witness :
  exists doc' data',
    load_config demo_config = inr doc'
    /\ mapping_at (objects doc') (PRef 1) = Some (1%nat, data')
    /\ data' !! "model_type"%string = Some (PStr "qwen2_5")
    /\ config_item doc' "data" = Some (PRef 1)
    /\ config_item doc' "backup" = Some (PRef 1).
Proof.
  destruct (load_config_sets_model_type demo_config 0 1
              (<["model_type" := PStr "qwen2_5"]>
                 (<["data" := PRef 1]> {[ "backup"%string := PRef 1 ]}))
              {[ "model_type"%string := PStr "old" ]})
    as (doc' & data' & Hl & _ & _ & Hmt & _ & _ & Halias & Hcfg & _).
  - reflexivity.
  - unfold demo_config. cbn [objects]. apply lookup_insert_eq.
  - by rewrite lookup_insert_ne, lookup_insert_eq.
  - unfold demo_config. cbn [objects].
    rewrite lookup_insert_ne by done. apply lookup_singleton_eq.
  - exists doc', data'. split; [exact Hl|].
    split; [apply (Halias "backup"%string);
            by rewrite !lookup_insert_ne, lookup_singleton_eq|].
    split; [by rewrite Hmt, lookup_insert_eq|].
    split; rewrite Hcfg by done.
    + by rewrite lookup_insert_ne, lookup_insert_eq.
    + by rewrite !lookup_insert_ne, lookup_singleton_eq.
Defined.

(** X7. [load_config] fails exactly on a document that is not a mapping
    ([AttributeError]), a mapping without "data" ([KeyError]), or a "data"
    entry that is not a mapping ([TypeError]). *)
Theorem load_config_errors (doc : document) :
  match load_config doc with
  | inr _ =>
      exists l config ld data,
        mapping_at (objects doc) (root doc) = Some (l, config)
        /\ config !! "data"%string = Some (PRef ld)
        /\ objects doc !! ld = Some (OMap data)
  | inl SAttributeError => mapping_at (objects doc) (root doc) = None
  | inl (SKeyError k) =>
      k = "data"%string
      /\ exists l config, mapping_at (objects doc) (root doc) = Some (l, config)
                          /\ config !! "data"%string = None
  | inl STypeError =>
      exists l config v, mapping_at (objects doc) (root doc) = Some (l, config)
                         /\ config !! "data"%string = Some v
                         /\ mapping_at (objects doc) v = None
  | inl SZeroDivisionError => False
  end.
Proof.
  unfold load_config.
  destruct (mapping_at (objects doc) (root doc)) as [[l config]|] eqn:Hm; [|done].
  destruct (config !! "data"%string) as [v|] eqn:Hd.
  - destruct (mapping_at (objects doc) v) as [[ld data]|] eqn:Hv.
    + exists l, config, ld, data. split; [done|].
      unfold mapping_at in Hv. destruct v as [| | | | |l']; try done.
      destruct (objects doc !! l') as [[m|items]|] eqn:Hl'; try done.
      by injection Hv as -> ->.
    + by exists l, config, v.
  - split; [done|]. by exists l, config.
Qed.

(** ** Constructing the dataset *)

Lemma getitem_no_state_specs (self : dataset) (item : gmap string value) (idx : Z) :
  state_specs self = [] -> __getitem__ self item idx = Err IndexError.
Proof. intros H. unfold __getitem__, _compose_state. by rewrite H. Qed.

Lemma getitem_no_action_specs (self : dataset) (item : gmap string value) (idx : Z) :
  action_specs self = [] -> exists e, __getitem__ self item idx = Err e.
Proof.
  intros H. unfold __getitem__.
  destruct (_compose_state self item) as [st|e]; [|by eexists]. cbn.
  unfold _compose_action. rewrite H.
  destruct (episode_index_of _) as [ep_idx|e]; [|by eexists]. cbn.
  destruct (index_int (episode_from self) ep_idx) as [ep_start|e]; [|by eexists]. cbn.
  destruct (index_int (episode_to self) ep_idx) as [ep_end|e]; [|by eexists]. cbn.
  by eexists.
Qed.

(** X8. A modality file without (or with an empty) "state" or "action" block is
    accepted by the constructor, but the dataset it builds yields no item:
    every [__getitem__] raises, with [IndexError] when the state block is the
    empty one. *)
Theorem init_missing_block (episode_from episode_to : list Z) (hf : hf_dataset)
    (modality : gmap string (list (string * cfg)))
    (action_horizon : Z) (state_key action_key : string) (self : dataset) :
  __init__ episode_from episode_to hf modality action_horizon state_key action_key
  = Ok self ->
  (default [] (modality !! "state"%string) = [] ->
   forall item idx, __getitem__ self item idx = Err IndexError)
  /\ (default [] (modality !! "action"%string) = [] ->
      forall item idx, exists e, __getitem__ self item idx = Err e).
Proof.
  unfold __init__.
  destruct (_parse_vector_specs (default [] (modality !! "state"%string)))
    as [sspecs|e] eqn:Hs; [|done]. cbn.
  destruct (_parse_vector_specs (default [] (modality !! "action"%string)))
    as [aspecs|e] eqn:Ha; [|done]. cbn.
  intros [= <-]. split.
  - intros Hnil item idx. apply getitem_no_state_specs. simpl.
    rewrite Hnil in Hs. by injection Hs as <-.
  - intros Hnil item idx. apply getitem_no_action_specs. simpl.
    rewrite Hnil in Ha. by injection Ha as <-.
Qed.

Lemma init_missing_block_witness :
  let modality : gmap string (list (string * cfg)) :=
    {[ "action"%string :=
         [("arm"%string,
           {| cfg_original_key := Some "act"%string;
              cfg_start := None; cfg_end := None |})] ]} in
  exists self,
    __init__ [0; 10] [10; 15] demo_store modality 4 "state" "action" = Ok self
    /\ __getitem__ self demo_item 13 = Err IndexError.
Proof.
  intros modality.
  destruct (__init__ [0; 10] [10; 15] demo_store modality 4 "state" "action")
    as [self|e] eqn:Hi.
  - exists self. split; [done|].
    eapply init_missing_block; [exact Hi|]. unfold modality.
    by rewrite lookup_singleton_ne.
  - exfalso. vm_compute in Hi. discriminate.
Defined.

(** ** The tokens added to the tokenizer *)

Lemma string_length_app (a b : string) :
  String.length (a +:+ b) = (String.length a + String.length b)%nat.
Proof. induction a as [|c a IH]; simpl; [done|]. by rewrite IH. Qed.

Lemma string_app_suffix_inj (t a b : string) : a +:+ t = b +:+ t -> a = b.
Proof.
  revert b. induction a as [|c a IH]; intros [|c' b] H.
  - done.
  - apply (f_equal String.length) in H. rewrite !string_length_app in H.
    simpl in H. lia.
  - apply (f_equal String.length) in H. rewrite !string_length_app in H.
    simpl in H. lia.
  - change (String c (a +:+ t) = String c' (b +:+ t)) in H.
    injection H as -> H. f_equal. by apply IH.
Qed.

Lemma action_token_not_marker (i : Z) :
  action_token i <> "<|propri|>"%string /\ action_token i <> "<|action|>"%string.
Proof.
  unfold action_token. split; intros H.
  - apply (f_equal (String.get 2)) in H. vm_compute in H. discriminate.
  - apply (f_equal (String.get 8)) in H. vm_compute in H. discriminate.
Qed.

Lemma action_token_inj (i j : Z) : action_token i = action_token j -> i = j.
Proof.
  unfold action_token. intros H%String.app_inj%string_app_suffix_inj.
  by apply (inj pretty) in H.
Qed.

Lemma range_NoDup (H : Z) : NoDup (range H).
Proof.
  unfold range. rewrite map_fmap. apply NoDup_fmap_2; [|apply NoDup_seq].
  intros a b. apply Nat2Z.inj.
Qed.

Lemma range_elem (H t : Z) : t ∈ range H <-> 0 <= t < H.
Proof.
  rewrite list_elem_of_lookup. split.
  - intros [i [-> Hi]%range_lookup]. lia.
  - intros Ht. exists (Z.to_nat t). apply range_lookup. lia.
Qed.

(** X9. The token list has the two markers first and then one token per action
    id, [<|action_token_i|>] at position [2 + i]; all tokens are distinct; and
    [<|action_token_0|>], whose id is recorded as the start index, is among
    them exactly when the action vocabulary is not empty. *)
Theorem new_tokens_layout (vocab_size : Z) :
  length (new_tokens vocab_size) = (2 + Z.to_nat vocab_size)%nat
  /\ (forall i, 0 <= i < vocab_size ->
        new_tokens vocab_size !! (2 + Z.to_nat i)%nat = Some (action_token i))
  /\ NoDup (new_tokens vocab_size)
  /\ ("<|action_token_0|>"%string ∈ new_tokens vocab_size <-> 1 <= vocab_size).
Proof.
  unfold new_tokens. split; [|split; [|split]].
  - simpl. unfold range. by rewrite !length_map, length_seq.
  - intros i Hi. simpl. rewrite map_fmap, list_lookup_fmap.
    assert (range vocab_size !! Z.to_nat i = Some i) as ->; [|done].
    apply range_lookup. lia.
  - simpl. apply NoDup_cons. split.
    + intros [H|H]%elem_of_cons; [discriminate|].
      apply list_elem_of_In, in_map_iff in H as (i & Hi & _).
      by apply action_token_not_marker in Hi.
    + apply NoDup_cons. split.
      * intros H. apply list_elem_of_In, in_map_iff in H as (i & Hi & _).
        by apply action_token_not_marker in Hi.
      * rewrite map_fmap. apply NoDup_fmap_2; [|apply range_NoDup].
        intros i j. apply action_token_inj.
  - simpl. rewrite !elem_of_cons. split.
    + intros [H|[H|H]]; [discriminate|discriminate|].
      apply list_elem_of_In, in_map_iff in H as (i & _ & Hi).
      apply list_elem_of_In, range_elem in Hi. lia.
    + intros Hv. right. right. apply list_elem_of_In, in_map_iff.
      exists 0. split; [reflexivity|]. apply list_elem_of_In, range_elem. lia.
Qed.

(** ** Slicing the last axis *)

(** X10. With non-negative bounds (and [end] not the sentinel) slicing never fails
    on a tensor that has a last axis: bounds beyond the width [D] are clipped,
    so the result keeps the leading shape and dtype and has width
    [min(end, D) - min(start, D)], zero when that is negative. *)
Theorem slice_clips (x : tensor) (start end_ : Z) :
  (1 <= ndim x)%nat -> 0 <= start -> 0 <= end_ ->
  exists p,
    _slice_last_dim x start end_ = Ok p
    /\ lead_of p = lead_of x
    /\ dtype p = dtype x
    /\ last_dim p
       = Z.to_nat (Z.min end_ (Z.of_nat (last_dim x))
                   - Z.min start (Z.of_nat (last_dim x)))
    /\ rows_of p = map (py_slice start (Some end_)) (rows_of x).
Proof.
  destruct x as [d [e|lead D rows]]; unfold ndim; simpl; [lia|]. intros _ Hs He.
  unfold _slice_last_dim, slice_last. simpl.
  assert ((end_ =? -1) = false) as -> by lia.
  eexists. split; [reflexivity|]. repeat split.
  unfold last_dim, slice_len, slice_hi, slice_lo, slice_bound. simpl.
  assert ((end_ <? 0) = false) as -> by lia.
  assert ((start <? 0) = false) as -> by lia. done.
Qed.

Lemma slice_clips_witness :
  exists p,
    _slice_last_dim (vec float32 (map fin [1; 2; 3])) 1 10 = Ok p
    /\ last_dim p = 2%nat.
Proof.
  destruct (slice_clips (vec float32 (map fin [1; 2; 3])) 1 10)
    as (p & Hp & _ & _ & Hd & _); [unfold ndim; simpl; lia|lia|lia|].
  exists p. split; [exact Hp|exact Hd].
Defined.




(** ** Error and edge behaviour of the composition *)

Lemma for_each_stops {A B} (f : A -> res B) (before after : list A) (a : A) (e : exn) :
  (forall a', a' ∈ before -> exists b, f a' = Ok b) ->
  f a = Err e ->
  for_each f (before ++ a :: after) = Err e.
Proof.
  intros Hbefore Ha. induction before as [|a' before IH]; cbn [app for_each].
  - by rewrite Ha.
  - destruct (Hbefore a' (list_elem_of_here _ _)) as [b ->]. cbn.
    rewrite IH; [done|]. intros ? ?. apply Hbefore. by apply list_elem_of_further.
Qed.

(** X12. A referenced state field that has no axis, a Python integer that an
    int64 holds or any value that is or converts to a 0-d tensor, makes the
    composition raise [IndexError] once the fields before it have composed. *)
Theorem scalar_field_fails (self : dataset) (item : gmap string value)
    (before after : list spec) (sp : spec) :
  state_specs self = before ++ sp :: after ->
  (forall sp', sp' ∈ before -> exists p, state_part item sp' = Ok p) ->
  (exists z, item !! original_key sp = Some (VInt z) /\ in_int64 z = true)
  \/ (exists v t, item !! original_key sp = Some v
                  /\ _ensure_tensor v = Ok t /\ ndim t = 0%nat) ->
  _compose_state self item = Err IndexError.
Proof.
  intros Hspecs Hbefore Hsp. unfold _compose_state. rewrite Hspecs.
  assert (exists v t, item !! original_key sp = Some v
                      /\ _ensure_tensor v = Ok t /\ ndim t = 0%nat)
    as (v & t & Hv & Ht & Hn).
  { destruct Hsp as [(z & Hz & Hb)|Hsp]; [|done].
    exists (VInt z), (Tensor int64 (Scalar (Fin (inject_Z z)))).
    split; [done|]. split; [|done]. unfold _ensure_tensor. by rewrite Hb. }
  assert (state_part item sp = Err IndexError) as Hpart.
  { unfold state_part, getkey. rewrite Hv. cbn. rewrite Ht. cbn.
    unfold _slice_last_dim, slice_last. unfold ndim in Hn.
    destruct (body t); [|done]. by destruct (end_ sp =? -1). }
  by rewrite (for_each_stops _ before after sp IndexError Hbefore Hpart).
Qed.

Lemma scalar_field_fails_witness :
  _compose_state demo (<["obs.vel" := VInt 7]> demo_item) = Err IndexError.
Proof.
  apply (scalar_field_fails demo _
           [{| original_key := "obs.pos"; start := 0; end_ := 3 |}] []
           {| original_key := "obs.vel"; start := 0; end_ := -1 |}).
  - reflexivity.
  - intros sp' ->%list_elem_of_singleton. unfold state_part, getkey.
    simpl original_key. rewrite lookup_insert_ne by done.
    unfold demo_item. rewrite lookup_insert_eq. by eexists.
  - left. exists 7. simpl original_key. split; [by rewrite lookup_insert_eq|reflexivity].
Defined.

(** X13. When the state and the action are published under one name, the record
    returned holds the composed action under it: the composed state is
    overwritten (after having served as input to the action composition), and
    every other key keeps its value. *)
Theorem same_key_keeps_action (self : dataset) (item out : gmap string value)
    (idx : Z) :
  state_key self = action_key self ->
  __getitem__ self item idx = Ok out ->
  exists st a,
    _compose_state self item = Ok st
    /\ _compose_action self (<[state_key self := VTensor st]> item) idx = Ok a
    /\ out = <[action_key self := VTensor a]> item
    /\ out !! state_key self = Some (VTensor a).
Proof.
  intros Hk (st & a & Hs & Ha & ->)%getitem_inv. exists st, a.
  split; [done|]. split; [done|]. rewrite <- Hk. split.
  - by rewrite insert_insert_eq.
  - by rewrite lookup_insert_eq.
Qed.

(** X14. The composition reads only the fields it references: two items that agree
    on the state block's original keys compose the same state, and two items
    that agree on "episode_index" and on the action block's original keys
    compose the same action. *)
Theorem compose_reads_referenced_keys (self : dataset)
    (item item' : gmap string value) (idx : Z) :
  ((forall sp, sp ∈ state_specs self ->
               item !! original_key sp = item' !! original_key sp) ->
   _compose_state self item = _compose_state self item')
  /\ (item !! "episode_index"%string = item' !! "episode_index"%string ->
      (forall sp, sp ∈ action_specs self ->
                  item !! original_key sp = item' !! original_key sp) ->
      _compose_action self item idx = _compose_action self item' idx).
Proof.
  split.
  - intros Hs. unfold _compose_state.
    rewrite (for_each_ext (state_part item) (state_part item')); [done|].
    intros sp Hin. unfold state_part, getkey. by rewrite (Hs sp Hin).
  - intros He Ha. unfold _compose_action, episode_index_of, getkey. rewrite He.
    destruct (item' !! "episode_index"%string) as [v|]; [|done]. cbn.
    destruct (match v with
              | VTensor t => tensor_item t ≫= int_of_elem
              | VInt z => Ok z
              | VObj as_int _ => as_int
              end) as [ep_idx|e]; [|done]. cbn.
    destruct (index_int (episode_from self) ep_idx) as [ep_start|e]; [|done]. cbn.
    destruct (index_int (episode_to self) ep_idx) as [ep_end|e]; [|done]. cbn.
    erewrite for_each_ext; [reflexivity|].
    intros sp Hin. unfold action_part, pregathered. by rewrite (Ha sp Hin).
Qed.

Lemma compose_reads_referenced_keys_witness :
  _compose_state demo (<["task" := VObj (Err ValueError) (Err TypeError)]> demo_item) = _compose_state demo demo_item.
Proof.
  apply (compose_reads_referenced_keys demo (<["task" := VObj (Err ValueError) (Err TypeError)]> demo_item)
           demo_item 13).
  intros sp Hin. apply lookup_insert_ne.
  apply elem_of_cons in Hin as [->|Hin];
    [|apply list_elem_of_singleton in Hin as ->]; discriminate.
Defined.

(** X15. When every action key is pre-gathered in the item, the composed action
    depends neither on the frame index nor on the horizon nor on the frame
    store: whatever these are, the result is the same. *)
Theorem pregathered_ignores_store (self self' : dataset)
    (item : gmap string value) (idx idx' : Z) :
  action_specs self' = action_specs self ->
  episode_from self' = episode_from self ->
  episode_to self' = episode_to self ->
  (forall sp, sp ∈ action_specs self -> is_Some (pregathered item (original_key sp))) ->
  _compose_action self item idx = _compose_action self' item idx'.
Proof.
  intros Hspecs Hfrom Hto Hpre. unfold _compose_action.
  rewrite Hspecs, Hfrom, Hto.
  destruct (episode_index_of item) as [ep_idx|e]; [|done]. cbn.
  destruct (index_int (episode_from self) ep_idx) as [ep_start|e]; [|done]. cbn.
  destruct (index_int (episode_to self) ep_idx) as [ep_end|e]; [|done]. cbn.
  erewrite for_each_ext; [reflexivity|].
  intros sp Hin. unfold action_part. by destruct (Hpre sp Hin) as [t ->].
Qed.

Lemma index_int_out_of_range {A} (l : list A) (i : Z) :
  in_int64 i = true ->
  i < - Z.of_nat (length l) \/ Z.of_nat (length l) <= i ->
  index_int l i = Err IndexError.
Proof.
  intros Hb Hi. unfold index_int. cbv zeta. rewrite Hb. cbn [negb].
  destruct (i <? 0) eqn:E.
  - assert ((0 <=? i + Z.of_nat (length l))
            && (i + Z.of_nat (length l) <? Z.of_nat (length l)) = false) as -> by lia.
    done.
  - assert ((0 <=? i) && (i <? Z.of_nat (length l)) = false) as -> by lia. done.
Qed.

(** X16. The action composition needs the episode metadata even when it gathers
    nothing: without "episode_index" in the item it raises that [KeyError];
    with an integer episode index that an int64 holds and that lies outside
    the episode table it raises [IndexError]; and a negative index [-k] within
    the table's length addresses the [k]-th episode from the end. *)
Theorem episode_lookup_behaviour (self : dataset) (item : gmap string value)
    (idx : Z) :
  (item !! "episode_index"%string = None ->
   _compose_action self item idx = Err (KeyError "episode_index"))
  /\ (forall ep, item !! "episode_index"%string = Some (VInt ep) ->
        in_int64 ep = true ->
        let n := Z.of_nat (length (episode_from self)) in
        ep < - n \/ n <= ep ->
        _compose_action self item idx = Err IndexError)
  /\ (forall ep, let n := Z.of_nat (length (episode_from self)) in
        n < 2 ^ 63 -> - n <= ep < 0 ->
        index_int (episode_from self) ep = index_int (episode_from self) (ep + n)).
Proof.
  split; [|split].
  - intros H. unfold _compose_action, episode_index_of, getkey. by rewrite H.
  - intros ep H Hb n Hout. unfold _compose_action, episode_index_of, getkey.
    rewrite H. cbn [mbind res_bind].
    rewrite (index_int_out_of_range (episode_from self)); [by cbn|exact Hb|exact Hout].
  - intros ep n Hn Hep. unfold index_int. cbv zeta. fold n.
    assert (in_int64 ep = true) as -> by (unfold in_int64; lia).
    assert (in_int64 (ep + n) = true) as -> by (unfold in_int64; lia).
    assert ((ep <? 0) = true) as -> by lia.
    assert ((ep + n <? 0) = false) as -> by lia. done.
Qed.

Lemma episode_lookup_behaviour_witness :
  _compose_action demo (delete "episode_index"%string demo_item) 13
  = Err (KeyError "episode_index")
  /\ _compose_action demo (<["episode_index" := VInt 2]> demo_item) 13
     = Err IndexError.
Proof.
  split.
  - apply (episode_lookup_behaviour demo (delete "episode_index"%string demo_item) 13).
    apply lookup_delete_eq.
  - destruct (episode_lookup_behaviour demo
                (<["episode_index" := VInt 2]> demo_item) 13) as (_ & H & _).
    apply (H 2); [apply lookup_insert_eq|reflexivity|simpl; lia].
Defined.

(** X17. A horizon that is not positive makes the fallback raise: once the episode
    is resolved, the first action key, if it is not pre-gathered, is looked up
    in a selection without rows.  A name that is no column of the frame store
    raises the store's [KeyError]; for a column, the transform that turns the
    selected cells into tensors looks at the first of none and raises
    [IndexError], before [torch.stack] is reached. *)
Theorem nonpositive_horizon_fails (self : dataset) (item : gmap string value)
    (idx ep_start ep_end : Z) (sp : spec) (rest : list spec) :
  action_horizon self <= 0 ->
  episode_range self item ep_start ep_end ->
  action_specs self = sp :: rest ->
  pregathered item (original_key sp) = None ->
  _compose_action self item idx
  = match columns (hf self) !! original_key sp with
    | Some _ => Err IndexError
    | None => Err (ColumnNotInDataset (original_key sp))
    end.
Proof.
  intros HH Hep Hspecs Hpre.
  rewrite (compose_action_unfold self item idx ep_start ep_end Hep), Hspecs.
  assert (clamped_indices idx ep_start ep_end (action_horizon self) = []) as ->.
  { unfold clamped_indices, range.
    by replace (Z.to_nat (action_horizon self)) with 0%nat by lia. }
  assert (select (hf self) [] = Ok []) as Hsel.
  { unfold select. cbv zeta. by destruct (Z.of_nat (num_rows (hf self)) =? 0). }
  cbn [for_each]. unfold action_part. rewrite Hpre. unfold gather. rewrite Hsel. cbn.
  unfold column. by destruct (columns (hf self) !! original_key sp).
Qed.

Lemma nonpositive_horizon_fails_witness :
  _compose_action
    {| action_horizon := 0; state_key := "state"; action_key := "action";
       state_specs := state_specs demo; action_specs := action_specs demo;
       episode_from := [0; 10]; episode_to := [10; 15]; hf := demo_store |}
    demo_item 13 = Err IndexError.
Proof.
  pose proof (nonpositive_horizon_fails
                {| action_horizon := 0; state_key := "state"; action_key := "action";
                   state_specs := state_specs demo; action_specs := action_specs demo;
                   episode_from := [0; 10]; episode_to := [10; 15]; hf := demo_store |}
                demo_item 13 10 15
                {| original_key := "act"; start := 0; end_ := -1 |} []) as H.
  simpl in H. rewrite lookup_singleton_eq in H. apply H.
  - lia.
  - exists 1. unfold episode_index_of, getkey, demo_item.
    rewrite !lookup_insert_ne, lookup_insert_eq by done. by repeat split.
  - reflexivity.
  - unfold pregathered, demo_item.
    by rewrite !lookup_insert_ne, lookup_empty.
Defined.

(** X18. The clamp outside its intended domain: for a non-empty episode every
    index lies in the episode whatever [idx] is; a window that ends at or
    before the episode start repeats the first frame; and for a degenerate
    episode ([ep_end <= ep_start]) every index is [ep_end - 1], a frame that
    is not in the episode. *)
Theorem clamp_edges (idx ep_start ep_end H c : Z) :
  c ∈ clamped_indices idx ep_start ep_end H ->
  (ep_start < ep_end -> ep_start <= c <= ep_end - 1)
  /\ (ep_start < ep_end -> idx + H - 1 <= ep_start -> c = ep_start)
  /\ (ep_end <= ep_start -> c = ep_end - 1).
Proof.
  intros [i Hi]%list_elem_of_lookup.
  apply clamped_indices_lookup in Hi as [-> Hi]. repeat split; lia.
Qed.

Lemma clamp_edges_witness :
  clamped_indices 3 10 15 4 = [10; 10; 10; 10]
  /\ (forall c, c ∈ clamped_indices 3 10 15 4 -> c = 10).
Proof.
  split; [reflexivity|]. intros c Hc.
  destruct (clamp_edges 3 10 15 4 c Hc) as (_ & H & _). apply H; lia.
Defined.

Lemma demo_same_getitem :
  __getitem__ demo_same demo_item 13 = Ok (<["action" := VTensor demo_action]> demo_item).
Proof. vm_compute. reflexivity. Qed.

Lemma same_key_keeps_action_witness :
  exists out a,
    __getitem__ demo_same demo_item 13 = Ok out
    /\ out = <[action_key demo_same := VTensor a]> demo_item.
Proof.
  destruct (same_key_keeps_action demo_same demo_item _ 13 eq_refl demo_same_getitem)
    as (st & a & _ & _ & Hout & _).
  exists (<["action" := VTensor demo_action]> demo_item), a.
  split; [exact demo_same_getitem|exact Hout].
Defined.

Lemma pregathered_ignores_store_witness :
  _compose_action demo demo_item_pre 13 = _compose_action demo_no_store demo_item_pre 0.
Proof.
  apply pregathered_ignores_store; try reflexivity.
  intros sp ->%list_elem_of_singleton. unfold pregathered, demo_item_pre.
  simpl original_key. rewrite lookup_insert_eq. by eexists.
Defined.

(** ** What the gathered action holds *)

(** X19. On the fallback path, with every action key a column of vectors of one
    dtype in the store, the composed action has one row per horizon step, and
    row [t] is the row composed from the frame at the [t]-th clamped index:
    the slices of that frame's raw vectors in block order.  Past the episode
    end the last frame's row is repeated. *)
Theorem gathered_action_rows (self : dataset) (item : gmap string value)
    (idx ep_start ep_end : Z) (d : DType) (raw : string -> nat -> list elem) :
  action_specs self <> [] ->
  episode_range self item ep_start ep_end ->
  ep_start < ep_end -> 0 <= ep_start -> ep_end <= Z.of_nat (num_rows (hf self)) ->
  1 <= action_horizon self ->
  (forall sp, sp ∈ action_specs self ->
     pregathered item (original_key sp) = None
     /\ (exists col, columns (hf self) !! original_key sp = Some col
                     /\ forall i, col i = vec d (raw (original_key sp) i))
     /\ forall i j, length (raw (original_key sp) i) = length (raw (original_key sp) j)) ->
  exists out,
    _compose_action self item idx = Ok out
    /\ dtype out = d
    /\ lead_of out = [Z.to_nat (action_horizon self)]
    /\ rows_of out
       = map (fun c => frame_row raw (action_specs self) (Z.to_nat c))
             (clamped_indices idx ep_start ep_end (action_horizon self))
    /\ (forall t, 0 <= t < action_horizon self ->
          rows_of out !! Z.to_nat t
          = Some (frame_row raw (action_specs self)
                    (Z.to_nat (Z.min (Z.max (idx + t) ep_start) (ep_end - 1))))).
Proof.
  intros Hne Hep Hlt H0 Hn HH Hkeys.
  set (indices := clamped_indices idx ep_start ep_end (action_horizon self)).
  set (out := compose_action_by_gather (fun _ => d) raw (action_specs self) indices).
  assert (dtype out = d) as Hd.
  { unfold out, compose_action_by_gather. cbn [dtype]. apply promote_all_const.
    - by destruct (action_specs self).
    - apply Forall_forall. by intros d' [sp [<- _]]%list_elem_of_In%in_map_iff. }
  assert (rows_of out
          = map (fun c => frame_row raw (action_specs self) (Z.to_nat c)) indices) as Hr.
  { unfold out, compose_action_by_gather in *. cbn [rows_of body dtype] in *.
    rewrite Hd. apply map_ext. intros c. unfold composed_row, frame_row. f_equal.
    apply map_ext. intros sp. apply map_convert_same. }
  exists out. split; [|split; [done|split; [|split; [done|]]]].
  - apply compose_action_gathered; try done.
    + intros sp Hin. by destruct (Hkeys sp Hin) as (_ & Hc & Hw).
    + intros sp t Hin Hp. destruct (Hkeys sp Hin) as (Hnone & _). congruence.
  - unfold out, compose_action_by_gather, lead_of. cbn [body].
    unfold indices. by rewrite clamped_indices_length.
  - intros t Ht. rewrite Hr, map_fmap, list_lookup_fmap.
    assert (indices !! Z.to_nat t
            = Some (Z.min (Z.max (idx + t) ep_start) (ep_end - 1))) as ->; [|done].
    apply clamped_indices_lookup. rewrite Z2Nat.id by lia. split; [done|lia].
Qed.

Lemma gathered_action_rows_witness :
  exists out,
    _compose_action demo demo_item 13 = Ok out
    /\ rows_of out !! 3%nat = Some [fin 14; fin 140].
Proof.
  destruct (gathered_action_rows demo demo_item 13 10 15 float32 demo_raw)
    as (out & Hout & _ & _ & _ & Hrow).
  - discriminate.
  - apply demo_episode_range, demo_item_lookup_episode.
  - lia.
  - lia.
  - simpl. lia.
  - simpl. lia.
  - intros sp ->%list_elem_of_singleton. simpl original_key. split; [|split].
    + unfold pregathered. by rewrite demo_item_lookup_act.
    + eexists. split; [apply lookup_singleton_eq|]. reflexivity.
    + reflexivity.
  - exists out. split; [exact Hout|]. exact (Hrow 3 ltac:(simpl; lia)).
Defined.

(** ** State fields with leading axes *)

Lemma state_parts_batched (item : gmap string value) (L : list nat)
    (specs : list spec) (ts : list tensor) :
  Forall2 (fun sp t => item !! original_key sp = Some (VTensor t)
                       /\ lead_of t = L /\ is_scalar t = false) specs ts ->
  exists parts,
    for_each (state_part item) specs = Ok parts
    /\ Forall (fun p => lead_of p = L /\ is_scalar p = false) parts
    /\ map last_dim parts
       = zip_with (fun sp t => slice_len (last_dim t) (start sp) (spec_stop sp)) specs ts.
Proof.
  induction 1 as [|sp t specs ts (Hk & Hl & Hs) _ (parts & Hp & HF & Hd)].
  - exists []. by repeat split.
  - assert (1 <= ndim t)%nat as Hn.
    { unfold ndim, is_scalar in *. destruct (body t); [done|lia]. }
    destruct (slice_last_dim_ok t (start sp) (end_ sp) Hn) as (p & Hsl & Hlp & Hdp & _).
    assert (state_part item sp = Ok p) as Hpart.
    { unfold state_part, getkey. rewrite Hk. cbn. by rewrite Hsl. }
    exists (p :: parts). cbn [for_each]. rewrite Hpart, Hp. cbn.
    split; [done|]. split.
    + constructor; [|done]. split; [congruence|by eapply slice_keeps_rows].
    + simpl. by rewrite Hdp, Hd.
Qed.

(** X20. When the referenced state fields share a non-empty leading shape [L]
    (fields with batch or time axes), the composed state keeps [L] and its
    last axis is as wide as the slices together. *)
Theorem compose_state_batched (self : dataset) (item : gmap string value)
    (L : list nat) (ts : list tensor) :
  state_specs self <> [] -> L <> [] ->
  Forall2 (fun sp t => item !! original_key sp = Some (VTensor t)
                       /\ lead_of t = L /\ is_scalar t = false)
          (state_specs self) ts ->
  exists out,
    _compose_state self item = Ok out
    /\ shape out
       = L ++ [sum_nat (zip_with (fun sp t => slice_len (last_dim t) (start sp) (spec_stop sp))
                                 (state_specs self) ts)].
Proof.
  intros Hne HL HF.
  destruct (state_parts_batched item L _ ts HF) as (parts & Hp & HFp & Hd).
  unfold _compose_state. rewrite Hp. cbn.
  destruct (join_parts_same_lead parts L) as (out & Hj & Hsh); [|done|done|].
  - intros ->. apply Hne. apply (f_equal length) in Hd. simpl in Hd.
    rewrite length_zip_with in Hd. apply Forall2_length in HF.
    destruct (state_specs self); [done|]. simpl in Hd. destruct ts; simpl in *; lia.
  - exists out. split; [done|]. by rewrite Hsh, Hd.
Qed.

Lemma compose_state_batched_witness :
  let pos := Tensor float32 (Rows [2%nat] 5 [map fin [1; 2; 3; 9; 9];
                                             map fin [6; 7; 8; 9; 9]]) in
  let vel := Tensor float32 (Rows [2%nat] 2 [map fin [4; 5]; map fin [0; 1]]) in
  exists out,
    _compose_state demo (<["obs.pos" := VTensor pos]> {[ "obs.vel"%string := VTensor vel ]})
    = Ok out
    /\ shape out = [2%nat; 5%nat].
Proof.
  intros pos vel.
  destruct (compose_state_batched demo
              (<["obs.pos" := VTensor pos]> {[ "obs.vel"%string := VTensor vel ]})
              [2%nat] [pos; vel]) as (out & Hout & Hsh).
  - discriminate.
  - discriminate.
  - constructor; [|constructor; [|constructor]].
    + split; [apply lookup_insert_eq|done].
    + split; [|done]. simpl original_key. rewrite lookup_insert_ne by done.
      apply lookup_singleton_eq.
  - exists out. split; [exact Hout|exact Hsh].
Defined.

(** ** Shapes and data stay consistent *)

(** A property of tensors that slicing, concatenating and stacking preserve
    is preserved by the whole of [__getitem__]. *)
Section Preserved.
Variable Q : tensor -> Prop.
Hypothesis Q_slice : forall x p s e, _slice_last_dim x s e = Ok p -> Q x -> Q p.
Hypothesis Q_cat : forall ts out, cat_last ts = Ok out -> Forall Q ts -> Q out.
Hypothesis Q_stack : forall ts out, stack ts = Ok out -> Forall Q ts -> Q out.

Lemma join_parts_preserves (parts : list tensor) (out : tensor) :
  join_parts parts = Ok out -> Forall Q parts -> Q out.
Proof.
  destruct parts as [|p [|q parts]]; cbn [join_parts]; [done| |].
  - intros [= <-] HF. by apply Forall_cons in HF as [HF _].
  - apply Q_cat.
Qed.

Lemma compose_state_preserves (self : dataset) (item : gmap string value)
    (st : tensor) :
  (forall k v t, item !! k = Some v -> _ensure_tensor v = Ok t -> Q t) ->
  _compose_state self item = Ok st -> Q st.
Proof.
  intros Hitem. unfold _compose_state.
  destruct (for_each _ _) as [parts|e] eqn:Hparts; [|done]. cbn.
  intros Hj. apply (join_parts_preserves parts); [done|].
  eapply for_each_Forall; [exact Hparts|].
  intros sp p _. unfold state_part, getkey.
  destruct (item !! original_key sp) as [v|] eqn:Hv; [|done]. cbn.
  destruct (_ensure_tensor v) as [t|e] eqn:Ht; [|done]. cbn.
  intros Hs. eapply Q_slice; [exact Hs|]. by eapply Hitem.
Qed.

Lemma compose_action_preserves (self : dataset) (item : gmap string value)
    (idx : Z) (a : tensor) :
  (forall k v t, item !! k = Some v -> _ensure_tensor v = Ok t -> Q t) ->
  (forall k col i, columns (hf self) !! k = Some col -> Q (col i)) ->
  _compose_action self item idx = Ok a -> Q a.
Proof.
  intros Hitem Hstore. unfold _compose_action.
  destruct (episode_index_of item) as [ep_idx|e]; [|done]. cbn.
  destruct (index_int (episode_from self) ep_idx) as [ep_start|e]; [|done]. cbn.
  destruct (index_int (episode_to self) ep_idx) as [ep_end|e]; [|done]. cbn.
  destruct (for_each _ _) as [parts|e] eqn:Hparts; [|done]. cbn.
  intros Hj. apply (join_parts_preserves parts); [done|].
  eapply for_each_Forall; [exact Hparts|].
  intros sp p _. unfold action_part.
  destruct (pregathered item (original_key sp)) as [t|] eqn:Hp; cbn.
  - apply pregathered_ndim in Hp as [Hp _].
    intros Hs. eapply Q_slice; [exact Hs|]. by eapply (Hitem _ (VTensor t)).
  - unfold gather. destruct (select _ _) as [rows|e]; [|done]. cbn.
    unfold column. destruct (columns (hf self) !! original_key sp) as [col|] eqn:Hc;
      [|done]. destruct rows as [|r rows]; [done|].
    generalize (r :: rows). intros rows'. cbn.
    destruct (stack (map col rows')) as [x|e] eqn:Hx; [|done]. cbn.
    intros Hs. eapply Q_slice; [exact Hs|].
    eapply Q_stack; [exact Hx|].
    apply Forall_forall. intros t [i [<- _]]%list_elem_of_In%in_map_iff.
    by eapply Hstore.
Qed.

Lemma getitem_preserves (self : dataset) (item out : gmap string value) (idx : Z) :
  (forall k v t, item !! k = Some v -> _ensure_tensor v = Ok t -> Q t) ->
  (forall k col i, columns (hf self) !! k = Some col -> Q (col i)) ->
  __getitem__ self item idx = Ok out ->
  forall k v t, out !! k = Some v -> _ensure_tensor v = Ok t -> Q t.
Proof.
  intros Hitem Hstore (st & a & Hs & Ha & ->)%getitem_inv.
  pose proof (compose_state_preserves self item st Hitem Hs) as Hst.
  assert (forall k v t, <[state_key self := VTensor st]> item !! k = Some v ->
                        _ensure_tensor v = Ok t -> Q t) as Hitem1.
  { intros k v t. destruct (decide (state_key self = k)) as [<-|Hne].
    - rewrite lookup_insert_eq. by intros [= <-] [= <-].
    - rewrite lookup_insert_ne by done. apply Hitem. }
  pose proof (compose_action_preserves self _ idx a Hitem1 Hstore Ha) as Hact.
  intros k v t. destruct (decide (action_key self = k)) as [<-|Hne].
  - rewrite lookup_insert_eq. by intros [= <-] [= <-].
  - rewrite lookup_insert_ne by done. apply Hitem1.
Qed.

End Preserved.

Lemma slice_wf (x p : tensor) (s e : Z) :
  _slice_last_dim x s e = Ok p -> wf_tensor x -> wf_tensor p.
Proof.
  unfold _slice_last_dim, slice_last, wf_tensor.
  destruct (body x) as [el|lead D rows]; [by destruct (e =? -1)|].
  intros Hp [Hlen Hrows].
  assert (forall stop,
            length (map (py_slice s stop) rows) = foldr Nat.mul 1%nat lead
            /\ Forall (fun r => length r = slice_len D s stop)
                      (map (py_slice s stop) rows)) as Hm.
  { intros stop. split; [by rewrite length_map|].
    clear Hp Hlen. induction Hrows as [|r rows Hr _ IH]; simpl; constructor; [|done].
    by rewrite py_slice_length, Hr. }
  destruct (e =? -1); injection Hp as <-; simpl; apply Hm.
Qed.

Lemma zip_app_lengths (a b : list (list elem)) (Da Db : nat) :
  Forall (fun r => length r = Da) a -> Forall (fun r => length r = Db) b ->
  Forall (fun r => length r = (Da + Db)%nat) (zip_with app a b).
Proof.
  intros Ha. revert b. induction Ha as [|r a Hr _ IH]; intros b Hb; [constructor|].
  destruct Hb as [|r' b Hr' Hb]; simpl; constructor.
  - rewrite length_app. lia.
  - by apply IH.
Qed.

Lemma cat_rows_wf (rs : list (list (list elem))) (Ds : list nat) (m : nat) :
  rs <> [] ->
  Forall2 (fun r D => length r = m /\ Forall (fun row => length row = D) r) rs Ds ->
  length (cat_rows rs) = m
  /\ Forall (fun row => length row = sum_nat Ds) (cat_rows rs).
Proof.
  intros Hne HF. induction HF as [|r D rs Ds [Hm Hr] HF IH]; [done|].
  destruct rs as [|r' rs].
  - apply Forall2_nil_inv_l in HF as ->. simpl. rewrite Nat.add_0_r. by split.
  - destruct IH as [IHm IHr]; [done|].
    change (cat_rows (r :: r' :: rs)) with (zip_with app r (cat_rows (r' :: rs))).
    split.
    + rewrite length_zip_with. lia.
    + simpl. by apply zip_app_lengths.
Qed.

Lemma rows_as_lengths (d : DType) (t : tensor) (m D : nat) :
  length (rows_of t) = m -> Forall (fun r => length r = D) (rows_of t) ->
  length (rows_as d t) = m /\ Forall (fun r => length r = D) (rows_as d t).
Proof.
  unfold rows_as. intros Hm HF. split; [by rewrite length_map|].
  clear Hm. induction HF as [|r rs Hr _ IH]; cbn [map]; constructor; [|done].
  by rewrite length_map.
Qed.

Lemma cat_last_wf (ts : list tensor) (out : tensor) :
  cat_last ts = Ok out -> Forall wf_tensor ts -> wf_tensor out.
Proof.
  unfold cat_last. destruct ts as [|t ts]; [done|].
  destruct (existsb is_scalar (t :: ts)) eqn:Hsc; [done|].
  intros Hc HF.
  assert (Forall (fun t0 => wf_tensor t0 /\ is_scalar t0 = false)
                 (filter (fun t0 => cat_skips t0 = false) (t :: ts))) as HF'.
  { apply Forall_forall. intros t' [_ Hin]%list_elem_of_filter. split.
    - rewrite Forall_forall in HF. by apply HF.
    - destruct (is_scalar t') eqn:E; [|done].
      assert (existsb is_scalar (t :: ts) = true) as Hex; [|congruence].
      apply existsb_exists. exists t'. split; [by apply list_elem_of_In|done]. }
  destruct (filter _ (t :: ts)) as [|t0 ts'].
  - injection Hc as <-. unfold wf_tensor. simpl. split; [done|]. by constructor.
  - destruct (forallb _ ts') eqn:Hall; [|done]. injection Hc as <-.
    unfold wf_tensor. cbn [body].
    set (rd := result_dtype (t :: ts)).
    apply (cat_rows_wf (map (rows_as rd) (t0 :: ts')) (map last_dim (t0 :: ts')));
      [done|].
    assert (Forall (fun t' => lead_of t' = lead_of t0) (t0 :: ts')) as Hlead.
    { constructor; [done|]. apply Forall_forall. intros t' Hin.
      rewrite forallb_forall in Hall.
      apply list_elem_of_In, Hall in Hin. by apply bool_decide_eq_true in Hin. }
    clear Hall. induction HF' as [|t' ts'' [Hwf Hns] _ IH]; [constructor|].
    apply Forall_cons in Hlead as [Hl Hlead].
    cbn [map]. constructor; [|by apply IH].
    apply rows_as_lengths.
    + unfold wf_tensor, rows_of, last_dim, lead_of, is_scalar in *.
      destruct (body t'); [done|]. destruct Hwf as [Hw1 Hw2]. by rewrite Hw1, Hl.
    + unfold wf_tensor, rows_of, last_dim, lead_of, is_scalar in *.
      destruct (body t'); [done|]. by destruct Hwf as [Hw1 Hw2].
Qed.

Lemma scalars_elems (rd : DType) (l : list tensor) (s : list nat) :
  s = [] -> Forall (fun t' => shape t' = s /\ wf_tensor t') l ->
  length (concat (concat (map (rows_as rd) l))) = length l.
Proof.
  intros -> HF. induction HF as [|t' l' [Hs _] _ IH]; [done|].
  cbn [map concat]. rewrite concat_app, length_app, IH. unfold shape, rows_as, rows_of in *.
  destruct (body t') as [e|lead D rows]; [done|by destruct lead].
Qed.

Lemma rows_of_stacked (rd : DType) (l : list tensor) (s lead : list nat) (D : nat) :
  s = lead ++ [D] -> Forall (fun t' => shape t' = s /\ wf_tensor t') l ->
  length (concat (map (rows_as rd) l)) = (length l * foldr Nat.mul 1 lead)%nat
  /\ Forall (fun r => length r = D) (concat (map (rows_as rd) l)).
Proof.
  intros -> HF. induction HF as [|t' l' [Hs Hwf] _ [IH1 IH2]]; [by split|].
  apply shape_lead_last in Hs as (Hl & Hd & Hns).
  unfold wf_tensor in Hwf. unfold lead_of in Hl. unfold last_dim in Hd.
  unfold is_scalar in Hns.
  assert (exists rows, rows_as rd t' = rows
                       /\ length rows = foldr Nat.mul 1%nat lead
                       /\ Forall (fun r => length r = D) rows) as (rows & Hr & Hw1 & Hw2).
  { eexists. split; [reflexivity|]. apply rows_as_lengths.
    - unfold rows_of. destruct (body t') as [e|lead' D' rows]; [done|].
      destruct Hwf as [Hw1 Hw2]. by subst lead' D'.
    - unfold rows_of. destruct (body t') as [e|lead' D' rows]; [done|].
      destruct Hwf as [Hw1 Hw2]. by subst lead' D'. }
  cbn [map concat]. rewrite Hr. split.
  - rewrite length_app, Hw1, IH1. simpl. lia.
  - apply Forall_app. by split.
Qed.

Lemma stack_wf (ts : list tensor) (out : tensor) :
  stack ts = Ok out -> Forall wf_tensor ts -> wf_tensor out.
Proof.
  unfold stack. destruct ts as [|t ts]; [done|].
  destruct (forallb _ ts) eqn:Hall; [|done]. intros [= <-] HF.
  assert (Forall (fun t' => shape t' = shape t /\ wf_tensor t') (t :: ts)) as Hsh.
  { apply Forall_cons in HF as [Ht HF]. constructor; [done|].
    apply Forall_forall. intros t' Hin. split.
    - rewrite forallb_forall in Hall.
      apply list_elem_of_In, Hall in Hin. by apply bool_decide_eq_true in Hin.
    - rewrite Forall_forall in HF. by apply HF. }
  clear Hall HF. set (rd := result_dtype (t :: ts)).
  destruct (body t) as [e|lead D rows] eqn:Hb.
  - change (length [concat (concat (map (rows_as rd) (t :: ts)))] = 1%nat
            /\ Forall (fun r => length r = length (t :: ts))
                      [concat (concat (map (rows_as rd) (t :: ts)))]).
    split; [done|]. constructor; [|done].
    apply scalars_elems with (s := shape t); [|done].
    unfold shape. by rewrite Hb.
  - change (length (concat (map (rows_as rd) (t :: ts)))
            = (length (t :: ts) * foldr Nat.mul 1 lead)%nat
            /\ Forall (fun r => length r = D) (concat (map (rows_as rd) (t :: ts)))).
    apply rows_of_stacked with (s := shape t); [|done].
    unfold shape. by rewrite Hb.
Qed.



(** X21. If the tensors of the underlying record, those its other values convert
    to included, and the rows of the frame store have data that agree with
    their shapes, so has every tensor of the record [__getitem__] returns, the
    composed state and action included: the composition never yields ragged or
    mis-sized data. *)
Theorem getitem_well_formed (self : dataset) (item out : gmap string value)
    (idx : Z) :
  (forall k v t, item !! k = Some v -> _ensure_tensor v = Ok t -> wf_tensor t) ->
  (forall k col i, columns (hf self) !! k = Some col -> wf_tensor (col i)) ->
  __getitem__ self item idx = Ok out ->
  forall k v t, out !! k = Some v -> _ensure_tensor v = Ok t -> wf_tensor t.
Proof.
  apply (getitem_preserves wf_tensor).
  - apply slice_wf.
  - apply cat_last_wf.
  - apply stack_wf.
Qed.

Lemma demo_item_wf (k : string) (v : value) (t : tensor) :
  demo_item !! k = Some v -> _ensure_tensor v = Ok t -> wf_tensor t.
Proof.
  unfold demo_item. intros Hk.
  apply lookup_insert_Some in Hk as [[_ Hk]|[_ Hk]];
    [subst v; intros [= <-]; by repeat constructor|].
  apply lookup_insert_Some in Hk as [[_ Hk]|[_ Hk]];
    [subst v; intros [= <-]; by repeat constructor|].
  apply lookup_insert_Some in Hk as [[_ Hk]|[_ Hk]];
    [subst v; intros [= <-]; by repeat constructor|].
  by rewrite lookup_empty in Hk.
Qed.

Lemma getitem_well_formed_witness : wf_tensor demo_state /\ wf_tensor demo_action.
Proof.
  assert (forall k col i, columns (hf demo) !! k = Some col -> wf_tensor (col i))
    as Hstore.
  { intros k col i [_ ->]%demo_store_column. by repeat constructor. }
  pose proof (getitem_well_formed demo demo_item demo_out 13
                demo_item_wf Hstore demo_getitem) as Hwf.
  split.
  - apply (Hwf "state"%string (VTensor demo_state)); [|done]. unfold demo_out.
    rewrite lookup_insert_ne by done. apply lookup_insert_eq.
  - apply (Hwf "action"%string (VTensor demo_action)); [|done]. unfold demo_out.
    apply lookup_insert_eq.
Defined.
